(** * Kombo: action dispatcher and stateless models

    A shallow embedding of the action bus of [src/kombo/main.ts]
    ([ActionDispatcher.registerReducer]) and of the [StatelessModel] class
    (handler registry and the suspend / wake-up protocol).

    JavaScript values are embedded as follows.
    - An optional or nullable field is an [option]; a flag tested for
      truthiness goes through [truthy].
    - A function that may throw returns a [Completion]; a method that
      mutates [this] takes the object and returns the updated one, also when
      it throws (JavaScript does not roll back assignments made before a
      [throw]).
    - A plain object used as a dictionary ([actionMatch], [sideEffectMatch])
      is a [gmap string _] of what a read of [obj[name]] returns: its own
      properties and, where it has none, the members it inherits from
      [Object.prototype] ([constructor], [toString], ...). [delete] removes
      an own property only, so an inherited member shows again. Assigning
      to the name [__proto__] gives the object another prototype in
      JavaScript; here that name is an inherited member like the others.
    - Objects compared with [===] (the synchronisation value of a suspended
      model) are values of a type with decidable equality that stands for
      object identity.
    - Time is counted in whole milliseconds; a timer asked to wait 2^31 ms
      or longer fires after 1 ms, as the timers of the runtime do.

    The definitions come first: the dispatcher ([Main]), then the model,
    the streams it uses and the runs of a model ([Model]). The properties
    follow in [MainFacts] and [ModelFacts]. *)

From stdpp Require Import gmap strings list fin_maps pretty.
From Stdlib Require Import ZArith.

Open Scope string_scope.
Open Scope list_scope.

(** ** Shared JavaScript notions *)

(** [new Error(message)]. *)
Inductive JsError : Type := NewError (message : string).

#[global] Instance JsError_eq_dec : EqDecision JsError.
Proof. solve_decision. Defined.

(** The outcome of running a statement: normal completion or [throw]. *)
Inductive Completion (A : Type) : Type :=
  | Normal (a : A)
  | Throw (e : JsError).
Arguments Normal {A} a.
Arguments Throw {A} e.

(** Truthiness of an optional boolean flag ([undefined] is falsy). *)
Definition truthy (flag : option bool) : bool := default false flag.

(** A method body: it reads and updates the object state [S] and completes
    or throws. The state survives a [throw]. *)
Definition Eff (S A : Type) : Type := S → Completion A * S.

Definition ret {S A} (a : A) : Eff S A := λ s, (Normal a, s).

Definition throw {S A} (e : JsError) : Eff S A := λ s, (Throw e, s).

Definition bind {S A B} (c : Eff S A) (k : A → Eff S B) : Eff S B :=
  λ s, match c s with
       | (Normal a, s') => k a s'
       | (Throw e, s') => (Throw e, s')
       end.

Definition get {S} : Eff S S := λ s, (Normal s, s).

Definition modify {S} (f : S → S) : Eff S unit := λ s, (Normal tt, f s).

(** [try { body } catch (e) { handler(e) }]. *)
Definition tryCatch {S A} (body : Eff S A) (handler : JsError → Eff S A) : Eff S A :=
  λ s, match body s with
       | (Normal a, s') => (Normal a, s')
       | (Throw e, s') => handler e s'
       end.

Notation "x ← c ;;; k" := (bind c (λ x, k))
  (at level 20, c at level 100, k at level 200, only parsing).

(** ** src/kombo/main.ts *)

Module Main.
Section Dispatcher.

Context {Payload T : Type}.

(** [interface Action]. *)
Record Action : Type := {
  type : string;
  payload : option Payload;
  error : option bool;
  isSideEffect : option bool;
}.

(** [interface IReducer<T>]. *)
Record IReducer : Type := { reduce : T → Action → T }.

(** [interface SideEffectHandler<T>]: the third argument is the dispatch
    helper the handler may call. *)
Definition SideEffectHandler : Type :=
  T → Action → (Action → Eff (list Action) unit) → Eff (list Action) unit.

(** [ActionDispatcher.dispatch]: [this.inAction$.next(action)]. The state is
    the sequence of actions pushed into the input subject so far. *)
Definition dispatch (action : Action) : Eff (list Action) unit :=
  λ q, (Normal tt, q ++ [action]).

(** The arrow function [(seAction:Action) => {...}] that [registerReducer]
    hands to the side-effect handler while [action] is being processed. *)
Definition seDispatch (action seAction : Action) : Eff (list Action) unit :=
  if truthy (isSideEffect action) then
    throw (NewError "Nested side-effect not allowed")
  else
    dispatch {| isSideEffect := Some true;
                type := type seAction;
                payload := payload seAction;
                error := error seAction |}.

(** The accumulator given to [scan] in [registerReducer]. The stream starts
    with [null], hence the optional action. *)
Definition scanStep (model : IReducer) (sideEffects : option SideEffectHandler)
    (state : T) (action : option Action) : Eff (list Action) T :=
  let newState :=
    match action with
    | Some a => reduce model state a
    | None => state
    end in
  match sideEffects, action with
  | Some se, Some a => _ ← se newState a (seDispatch a) ;;; ret newState
  | _, _ => ret newState
  end.

(** A side-effect handler that calls its dispatch helper once. *)
Definition dispatchOnce (seAction : Action) : SideEffectHandler :=
  λ _ _ dispatchSE, dispatchSE seAction.

(** [isUIAction], [isSideEffectAction]. *)
Definition isUIAction (action : Action) : bool :=
  negb (truthy (isSideEffect action)).

Definition isSideEffectAction (action : Action) : bool :=
  truthy (isSideEffect action).

(** [scan(accumulator, state)] for a model registered without side-effect
    handler ([sideEffects] left undefined): the states passed on to
    [state$] for the actions that reach the subscriber, and the error that
    ended the stream if the accumulator threw. A handler that dispatches
    would re-enter the accumulator while it is still running; that is not
    part of this embedding, which is why no handler is taken here. *)
Fixpoint scanAll (model : IReducer) (state : T) (actions : list (option Action))
    (q : list Action) : (list T * option JsError) * list Action :=
  match actions with
  | [] => (([], None), q)
  | action :: rest =>
      match scanStep model None state action q with
      | (Normal newState, q') =>
          let '((states, err), q'') := scanAll model newState rest q' in
          ((newState :: states, err), q'')
      | (Throw e, q') => (([], Some e), q')
      end
  end.

(** [registerReducer(model, initialState)], run on the actions that reach
    the subscriber after [startWith(null)]. *)
Definition registerReducer (model : IReducer) (initialState : T)
    (observed : list Action) (q : list Action)
  : (list T * option JsError) * list Action :=
  scanAll model initialState (None :: (Some <$> observed)) q.

(** The running states of a left fold. *)
Fixpoint runningStates (model : IReducer) (state : T) (actions : list Action)
  : list T :=
  match actions with
  | [] => []
  | a :: rest => reduce model state a :: runningStates model (reduce model state a) rest
  end.

End Dispatcher.

(** A user action and a side-effect action, for concrete runs. *)
Definition uiAction : @Action unit :=
  {| type := "TODO_ADD"; payload := None; error := None;
     isSideEffect := None |}.

Definition seAction : @Action unit :=
  {| type := "TODO_SAVED"; payload := Some tt; error := None;
     isSideEffect := Some true |}.

Definition countActions : @IReducer unit nat := {| reduce := λ n _, S n |}.

End Main.

(** ** The StatelessModel class *)

Module Model.
Section StatelessModel.

Context {T U Payload : Type} `{EqDecision U}.

(** Modelled from the spec: the [Action] interface of [action/common], which
    is not among the sources. The model reads [action.name] as the dispatch
    key and passes [action.error] to the error channel of a stream. *)
Record Action : Type := {
  name : string;
  payload : option Payload;
  error : option JsError;
  isSideEffect : option bool;
}.

(** [SEDispatcher], [IReducer], [ISideEffectHandler]. *)
Definition SEDispatcher : Type := Action → Eff (list Action) unit.

Definition IReducer : Type := T → Action → T.

Definition ISideEffectHandler : Type :=
  T → Action → SEDispatcher → Eff (list Action) unit.

(** [INewStateReducer]: an Immer recipe. It edits a draft of the state; the
    embedding gives the finished draft. *)
Definition INewStateReducer : Type := T → Action → T.

(** Immer's curried [produce(recipe)] and [produce(base, recipe)]. *)
Definition produce (recipe : INewStateReducer) : IReducer :=
  λ state action, recipe state action.

Definition produceOn (base : T) (recipe : T → T) : T := recipe base.

(** What a wake predicate answers: a synchronisation value, [null]
    ([Normal None]) or an exception. *)
Definition WakeFn : Type := Action → U → Completion (option U).

(** [Object.prototype]. The registries are plain objects ([{}]), so a read
    of [obj[name]] finds an own property or, failing that, the member of
    [Object.prototype] of that name ([constructor], [toString], ...). The
    maps of a model hold what such reads return, inherited members
    included. An instance lists the inherited members, each as the two
    registries use it: called as a reducer and called as a side-effect
    producer. What such a call does is up to the instance; the properties
    proved here hold for every instance. *)
Class ObjectPrototype : Type := {
  objectPrototype : gmap string (IReducer * ISideEffectHandler);
}.

Context `{!ObjectPrototype}.

(** What [actionMatch] and [sideEffectMatch] read before any assignment. *)
Definition inheritedReducers : gmap string IReducer := fst <$> objectPrototype.

Definition inheritedSideEffects : gmap string ISideEffectHandler :=
  snd <$> objectPrototype.

(** [delete obj[name]] as later reads see it: an own property goes, and a
    member inherited under that name shows again. *)
Definition deleteProperty {V : Type} (inherited : gmap string V) (name : string)
    (obj : gmap string V) : gmap string V :=
  match inherited !! name with
  | Some member => <[name:=member]> obj
  | None => delete name obj
  end.

(** The fields of a model. [state] is the value held by [state$];
    [wakeEvents] is a reference to a subject of the runtime below, undefined
    until the first suspension. The debugging hook [_onActionMatch] does not
    contribute to any result and is left out. *)
Record StatelessModel : Type := {
  state : T;
  wakeFn : option WakeFn;
  syncData : option U;
  wakeEvents : option nat;
  actionMatch : gmap string IReducer;
  sideEffectMatch : gmap string ISideEffectHandler;
}.

(** The constructor, after [registerModel] has seeded [state$]. Both
    registries start as [{}]. *)
Definition newModel (initialState : T) : StatelessModel :=
  {| state := initialState; wakeFn := None; syncData := None;
     wakeEvents := None; actionMatch := inheritedReducers;
     sideEffectMatch := inheritedSideEffects |}.

Definition setActionMatch (am : gmap string IReducer) (m : StatelessModel) :=
  {| state := state m; wakeFn := wakeFn m; syncData := syncData m;
     wakeEvents := wakeEvents m; actionMatch := am;
     sideEffectMatch := sideEffectMatch m |}.

Definition setSideEffectMatch (sm : gmap string ISideEffectHandler)
    (m : StatelessModel) :=
  {| state := state m; wakeFn := wakeFn m; syncData := syncData m;
     wakeEvents := wakeEvents m; actionMatch := actionMatch m;
     sideEffectMatch := sm |}.

Definition setWakeFn (f : option WakeFn) (m : StatelessModel) :=
  {| state := state m; wakeFn := f; syncData := syncData m;
     wakeEvents := wakeEvents m; actionMatch := actionMatch m;
     sideEffectMatch := sideEffectMatch m |}.

Definition setSyncData (sd : option U) (m : StatelessModel) :=
  {| state := state m; wakeFn := wakeFn m; syncData := sd;
     wakeEvents := wakeEvents m; actionMatch := actionMatch m;
     sideEffectMatch := sideEffectMatch m |}.

Definition setWakeEvents (ref : option nat) (m : StatelessModel) :=
  {| state := state m; wakeFn := wakeFn m; syncData := syncData m;
     wakeEvents := ref; actionMatch := actionMatch m;
     sideEffectMatch := sideEffectMatch m |}.

(** *** Handler registry *)

Definition reduce (m : StatelessModel) (st : T) (action : Action) : T :=
  match actionMatch m !! name action with
  | Some matched => matched st action
  | None => st
  end.

Definition sideEffects (m : StatelessModel) (st : T) (action : Action)
    (dispatch : SEDispatcher) : Eff (list Action) unit :=
  match sideEffectMatch m !! name action with
  | Some matched => matched st action dispatch
  | None => ret tt
  end.

(** [IActionHandlerModifier]: the object returned by the registration
    methods; it remembers the action name it was made for. *)
Record HandlerModifier : Type := { modifiedAction : string }.

Definition createHandlerModifier (actionName : string) : HandlerModifier :=
  {| modifiedAction := actionName |}.

Definition reduceAlsoOn (modifier : HandlerModifier) (actions : list string)
  : Eff StatelessModel HandlerModifier :=
  m ← get ;;;
  match actionMatch m !! modifiedAction modifier with
  | None =>
      throw (NewError ("Cannot modify action handler - no reducer for action "
                       +:+ modifiedAction modifier))
  | Some reducer =>
      _ ← modify (λ m, foldl (λ m a, setActionMatch (<[a:=reducer]> (actionMatch m)) m)
                             m actions) ;;;
      ret modifier
  end.

Definition sideEffectAlsoOn (modifier : HandlerModifier) (actions : list string)
  : Eff StatelessModel HandlerModifier :=
  m ← get ;;;
  match sideEffectMatch m !! modifiedAction modifier with
  | None =>
      throw (NewError
        ("Cannot modify action handler - no side-effect producer for action "
         +:+ modifiedAction modifier))
  | Some seProducer =>
      _ ← modify (λ m, foldl (λ m a, setSideEffectMatch
                                       (<[a:=seProducer]> (sideEffectMatch m)) m)
                             m actions) ;;;
      ret modifier
  end.

Definition reducerDefined (actionName : string) : JsError :=
  NewError ("Reducer for [" +:+ actionName +:+ "] already defined.").

Definition sideEffectDefined (actionName : string) : JsError :=
  NewError ("Side-effect producer for [" +:+ actionName +:+ "] already defined.").

(** The two guarded assignments shared by [addActionHandler] and
    [addActionSubtypeHandler]. *)
Definition installReducer (actionName : string) (reducer : IReducer)
  : Eff StatelessModel unit :=
  m ← get ;;;
  match actionMatch m !! actionName with
  | None => modify (setActionMatch (<[actionName:=reducer]> (actionMatch m)))
  | Some _ => throw (reducerDefined actionName)
  end.

Definition installSideEffect (actionName : string) (seProducer : ISideEffectHandler)
  : Eff StatelessModel unit :=
  m ← get ;;;
  match sideEffectMatch m !! actionName with
  | None =>
      modify (setSideEffectMatch (<[actionName:=seProducer]> (sideEffectMatch m)))
  | Some _ => throw (sideEffectDefined actionName)
  end.

Definition addActionHandler (actionName : string)
    (reducer : option INewStateReducer) (seProducer : option ISideEffectHandler)
  : Eff StatelessModel HandlerModifier :=
  _ ← match reducer with
      | Some r => installReducer actionName (produce r)
      | None => ret tt
      end ;;;
  _ ← match seProducer with
      | Some se => installSideEffect actionName se
      | None => ret tt
      end ;;;
  ret (createHandlerModifier actionName).

Definition addActionSubtypeHandler (actionName : string) (matches : Action → bool)
    (reducer : option INewStateReducer) (seProducer : option ISideEffectHandler)
  : Eff StatelessModel HandlerModifier :=
  _ ← match reducer with
      | Some r =>
          installReducer actionName
            (λ st action, if matches action then produce r st action else st)
      | None => ret tt
      end ;;;
  _ ← match seProducer with
      | Some se =>
          installSideEffect actionName
            (λ st action seDispatch,
               if matches action then se st action seDispatch else ret tt)
      | None => ret tt
      end ;;;
  ret (createHandlerModifier actionName).

Definition replaceActionHandler (actionName : string)
    (reducer : option INewStateReducer) (seProducer : option ISideEffectHandler)
  : Eff StatelessModel HandlerModifier :=
  _ ← modify (λ m, setActionMatch
                     (deleteProperty inheritedReducers actionName (actionMatch m)) m) ;;;
  _ ← modify (λ m, setSideEffectMatch
                     (deleteProperty inheritedSideEffects actionName
                        (sideEffectMatch m)) m) ;;;
  addActionHandler actionName reducer seProducer.

Definition extendActionHandler (actionName : string)
    (reducer : option INewStateReducer) (seProducer : option ISideEffectHandler)
  : Eff StatelessModel HandlerModifier :=
  m ← get ;;;
  let currReducer : IReducer :=
    default (λ st _, st) (actionMatch m !! actionName) in
  _ ← modify (setActionMatch
    (<[actionName := λ st action,
         let tmp := currReducer st action in
         match reducer with
         | Some r => produceOn tmp (λ st', r st' action)
         | None => tmp
         end]> (actionMatch m))) ;;;
  m ← get ;;;
  let currSEProducer : ISideEffectHandler :=
    default (λ _ _ _, ret tt) (sideEffectMatch m !! actionName) in
  _ ← modify (setSideEffectMatch
    (<[actionName := λ st action dispatch,
         _ ← currSEProducer st action dispatch ;;;
         match seProducer with
         | Some se => se st action dispatch
         | None => ret tt
         end]> (sideEffectMatch m))) ;;;
  ret (createHandlerModifier actionName).

(** *** Streams

    The part of RxJS the suspension code relies on: a [Subject], and the
    chain [takeUntil(timer) / reduce / concatMap(of)] that every subscriber
    of the Observable returned by [suspendWithTimeout] gets. Subscribers are
    passive: they record what they are sent. *)

Inductive Notification (A : Type) : Type :=
  | Next (a : A)
  | Error (e : JsError)
  | Complete.
Arguments Next {A} a.
Arguments Error {A} e.
Arguments Complete {A}.

(** [Subject]: the [observers] array is not stored; it is the subscribers of
    the runtime that name this subject as their [source] and are not closed,
    in subscription order. *)
Record Subject : Type := {
  isStopped : bool;
  thrownError : option JsError;
}.

(** One subscription to a returned Observable. [timeout] and [since] are the
    argument of [timer] and the time of subscription, [acc] the accumulator
    of [reduce], [received] what has reached the subscriber's callbacks. *)
Record Subscriber : Type := {
  source : option nat;
  timeout : Z;
  since : Z;
  acc : list Action;
  closed : bool;
  received : list (Notification Action);
}.

Record World : Type := {
  model : StatelessModel;
  subjects : list Subject;
  subscribers : list Subscriber;
  now : Z;
}.

Definition newWorld (initialState : T) : World :=
  {| model := newModel initialState; subjects := []; subscribers := [];
     now := 0 |}.

Definition setModel (m : StatelessModel) (w : World) : World :=
  {| model := m; subjects := subjects w; subscribers := subscribers w;
     now := now w |}.

Definition setSubjects (sjs : list Subject) (w : World) : World :=
  {| model := model w; subjects := sjs; subscribers := subscribers w;
     now := now w |}.

Definition setSubscribers (subs : list Subscriber) (w : World) : World :=
  {| model := model w; subjects := subjects w; subscribers := subs;
     now := now w |}.

Definition setNow (t : Z) (w : World) : World :=
  {| model := model w; subjects := subjects w; subscribers := subscribers w;
     now := t |}.

(** [reduce((acc, action) => acc.concat(action), [])]: nothing is emitted
    until the source completes. *)
Definition reduceOp (buffer : list Action) (n : Notification Action)
  : list Action * list (Notification (list Action)) :=
  match n with
  | Next a => (buffer ++ [a], [])
  | Error e => (buffer, [Error e])
  | Complete => (buffer, [Next buffer; Complete])
  end.

(** [concatMap(actions => rxOf(...actions))]. *)
Definition concatMapOf (n : Notification (list Action))
  : list (Notification Action) :=
  match n with
  | Next actions => Next <$> actions
  | Error e => [Error e]
  | Complete => [Complete]
  end.

Definition terminal {A} (n : Notification A) : bool :=
  match n with
  | Next _ => false
  | _ => true
  end.

(** A notification entering the chain of one subscriber. *)
Definition deliver (n : Notification Action) (s : Subscriber) : Subscriber :=
  let '(buffer, out) := reduceOp (acc s) n in
  {| source := source s; timeout := timeout s; since := since s;
     acc := buffer; closed := closed s || terminal n;
     received := received s ++ (out ≫= concatMapOf) |}.

Definition timeoutError (ms : Z) : JsError :=
  NewError ("Model suspend timeout (" +:+ pretty ms +:+ "ms)").

(** The delay a timer really gets: the runtime keeps delays below 2^31 ms
    and turns longer ones into 1 ms. *)
Definition timerDelay (ms : Z) : Z :=
  if bool_decide (ms < 2 ^ 31)%Z then ms else 1%Z.

(** [takeUntil(timer(timeout).pipe(concatMap(v => throwError(...))))]: when
    the timer of a live subscription is due, the chain gets the error and
    leaves the subject. *)
Definition fire (t : Z) (s : Subscriber) : Subscriber :=
  if closed s then s
  else if bool_decide (0 < timeout s)%Z
          && bool_decide (since s + timerDelay (timeout s) ≤ t)%Z
  then deliver (Error (timeoutError (timeout s))) s
  else s.

(** Time passes; due timers fire. *)
Definition elapse (ms : nat) (w : World) : World :=
  let t := (now w + Z.of_nat ms)%Z in
  setNow t (setSubscribers (fire t <$> subscribers w) w).

Definition isObserver (ref : nat) (s : Subscriber) : bool :=
  bool_decide (source s = Some ref) && negb (closed s).

Definition notify (ref : nat) (n : Notification Action) (w : World) : World :=
  setSubscribers
    ((λ s, if isObserver ref s then deliver n s else s) <$> subscribers w) w.

(** [Subject.next], [Subject.error], [Subject.complete]. *)
Definition Subject_next (value : Action) (ref : nat) (w : World) : World :=
  match subjects w !! ref with
  | Some sj => if isStopped sj then w else notify ref (Next value) w
  | None => w
  end.

Definition Subject_error (err : JsError) (ref : nat) (w : World) : World :=
  notify ref (Error err)
    (setSubjects
       (alter (λ _, {| isStopped := true; thrownError := Some err |}) ref
              (subjects w)) w).

Definition Subject_complete (ref : nat) (w : World) : World :=
  notify ref Complete
    (setSubjects
       (alter (λ sj, {| isStopped := true; thrownError := thrownError sj |}) ref
              (subjects w)) w).

(** What [suspendWithTimeout] returns: [throwError(...)] or the chain over
    a subject. *)
Inductive Observable : Type :=
  | ThrowError (e : JsError)
  | WakeEvents (ref : nat) (ms : Z).

Definition freshSubscriber (src : option nat) (ms t : Z) : Subscriber :=
  {| source := src; timeout := ms; since := t; acc := []; closed := false;
     received := [] |}.

(** The subscriber made by [observable.subscribe(...)]. A subject that has
    already failed or completed answers at once. *)
Definition newSubscriber (o : Observable) (w : World) : Subscriber :=
  match o with
  | ThrowError e => deliver (Error e) (freshSubscriber None 0 (now w))
  | WakeEvents ref ms =>
      let fresh := freshSubscriber (Some ref) ms (now w) in
      match subjects w !! ref with
      | Some sj =>
          match thrownError sj with
          | Some e => deliver (Error e) fresh
          | None => if isStopped sj then deliver Complete fresh else fresh
          end
      | None => fresh
      end
  end.

(** [observable.subscribe(...)]: the new subscriber is the last one. *)
Definition subscribe (o : Observable) (w : World) : World :=
  setSubscribers (subscribers w ++ [newSubscriber o w]) w.

(** *** Suspend and wake-up *)

Definition alreadySuspended : JsError :=
  NewError "The model is already suspended.".

Definition suspendWithTimeout (ms : Z) (sd : U) (f : WakeFn)
  : Eff World Observable :=
  w ← get ;;;
  match wakeFn (model w) with
  | Some _ => ret (ThrowError alreadySuspended)
  | None =>
      let ref := length (subjects w) in
      _ ← modify (λ w, setModel (setWakeFn (Some f) (model w)) w) ;;;
      _ ← modify (λ w, setModel (setSyncData (Some sd) (model w)) w) ;;;
      _ ← modify (λ w,
            setModel (setWakeEvents (Some ref) (model w))
              (setSubjects
                 (subjects w ++ [{| isStopped := false; thrownError := None |}])
                 w)) ;;;
      ret (WakeEvents ref ms)
  end.

Definition suspend (sd : U) (f : WakeFn) : Eff World Observable :=
  suspendWithTimeout 0 sd f.

(** A call through [this.wakeEvents$]; the field is undefined before the
    first suspension. *)
Definition onWakeEvents (op : nat → World → World) : Eff World unit :=
  w ← get ;;;
  match wakeEvents (model w) with
  | Some ref => modify (op ref)
  | None => throw (NewError "TypeError: this.wakeEvents$ is undefined")
  end.

Definition callWakeFn (f : WakeFn) (action : Action) (sd : U)
  : Eff World (option U) :=
  λ w, (f action sd, w).

Definition wakeUp (action : Action) : Eff World unit :=
  w ← get ;;;
  match wakeFn (model w), syncData (model w) with
  | Some f, Some sd =>
      tryCatch
        (ans ← callWakeFn f action sd ;;;
         match ans with
         | None =>
             _ ← modify (λ w, setModel (setWakeFn None (model w)) w) ;;;
             match error action with
             | Some e => onWakeEvents (Subject_error e)
             | None =>
                 _ ← onWakeEvents (Subject_next action) ;;;
                 onWakeEvents Subject_complete
             end
         | Some v =>
             if decide (v = sd) then ret tt
             else
               _ ← onWakeEvents (Subject_next action) ;;;
               modify (λ w, setModel (setSyncData (Some v) (model w)) w)
         end)
        (λ e,
           _ ← modify (λ w, setModel (setWakeFn None (model w)) w) ;;;
           onWakeEvents (Subject_error e))
  | _, _ => ret tt
  end.

Definition isActive (m : StatelessModel) : bool :=
  match wakeFn m with
  | Some _ => false
  | None => true
  end.

Definition getState (m : StatelessModel) : T := state m.

(** The model is suspended on predicate [f] with synchronisation value [sd],
    and the subject behind [wakeEvents$] is the live subject [ref]. *)
Definition suspendedOn (w : World) (f : WakeFn) (sd : U) (ref : nat) : Prop :=
  wakeFn (model w) = Some f
  ∧ syncData (model w) = Some sd
  ∧ wakeEvents (model w) = Some ref
  ∧ ∃ sj, subjects w !! ref = Some sj ∧ isStopped sj = false.

(** *** Runs of a model *)

(** What can happen to a model and the streams around it: a suspension
    request, a subscription to an Observable obtained from one, an action
    handed to [wakeUp] by the dispatcher, the passing of time. *)
Inductive Event : Type :=
  | EvSuspend (ms : Z) (sd : U) (f : WakeFn)
  | EvSubscribe (o : Observable)
  | EvAction (a : Action)
  | EvElapse (ms : nat).

Definition step (ev : Event) (w : World) : World :=
  match ev with
  | EvSuspend ms sd f => snd (suspendWithTimeout ms sd f w)
  | EvSubscribe o => subscribe o w
  | EvAction a => snd (wakeUp a w)
  | EvElapse ms => elapse ms w
  end.

Definition run (evs : list Event) (w : World) : World :=
  foldl (λ w ev, step ev w) w evs.

(** Only Observables that [suspendWithTimeout] has returned can be
    subscribed: their subject exists. *)
Definition enabled (w : World) (ev : Event) : Prop :=
  match ev with
  | EvSubscribe (WakeEvents ref _) => ref < length (subjects w)
  | _ => True
  end.

Inductive reachable (initialState : T) : World → Prop :=
  | reach_new : reachable initialState (newWorld initialState)
  | reach_step w ev :
      reachable initialState w → enabled w ev →
      reachable initialState (step ev w).

(** [w'] can be reached from [w]. *)
Inductive reaches (w : World) : World → Prop :=
  | reaches_here : reaches w w
  | reaches_step w' ev :
      reaches w w' → enabled w' ev → reaches w (step ev w').

(** The subject [ref] exists and has neither failed nor completed. *)
Definition live (w : World) (ref : nat) : Prop :=
  ∃ sj, subjects w !! ref = Some sj ∧ isStopped sj = false.

Record Inv (w : World) : Prop := {
  inv_suspended :
    ∀ f, wakeFn (model w) = Some f → ∃ sd ref, suspendedOn w f sd ref;
  inv_live :
    ∀ ref, live w ref →
      wakeEvents (model w) = Some ref ∧ is_Some (wakeFn (model w));
  inv_open :
    ∀ i s, subscribers w !! i = Some s → closed s = false →
      received s = [] ∧ ∃ ref, source s = Some ref ∧ live w ref;
  inv_quiet :
    ∀ i s ref, subscribers w !! i = Some s → source s = Some ref →
      live w ref → received s = [] ∨ ∃ e, received s = [Error e];
  inv_source :
    ∀ i s ref, subscribers w !! i = Some s → source s = Some ref →
      ref < length (subjects w);
}.

(** *** What a subscriber sees over a whole run *)

Definition closedWith (buffer : list Action) (out : list (Notification Action))
    (s : Subscriber) : Subscriber :=
  {| source := source s; timeout := timeout s; since := since s;
     acc := buffer; closed := true; received := out |}.

Definition buffering (buffer : list Action) (s : Subscriber) : Subscriber :=
  {| source := source s; timeout := timeout s; since := since s;
     acc := buffer; closed := false; received := [] |}.

(** The effect of one event on one subscription, told from the answer of
    the wake predicate. A closed subscription never changes. An open one
    only buffers until the model wakes up; then it receives its whole
    buffer and the waking action, in order, and the completion. An error
    (exception in the predicate, waking action carrying an error, timeout)
    is all it receives when the suspension ends that way. *)
Inductive Fate (w : World) (s : Subscriber) : Event → Subscriber → Prop :=
  | fate_closed ev :
      closed s = true → Fate w s ev s
  | fate_suspend ms sd f :
      Fate w s (EvSuspend ms sd f) s
  | fate_subscribe o :
      Fate w s (EvSubscribe o) s
  | fate_swallowed a f sd :
      closed s = false →
      wakeFn (model w) = Some f → syncData (model w) = Some sd →
      f a sd = Normal (Some sd) →
      Fate w s (EvAction a) s
  | fate_buffered a f sd v :
      closed s = false →
      wakeFn (model w) = Some f → syncData (model w) = Some sd →
      f a sd = Normal (Some v) → v ≠ sd →
      Fate w s (EvAction a) (buffering (acc s ++ [a]) s)
  | fate_delivered a f sd :
      closed s = false →
      wakeFn (model w) = Some f → syncData (model w) = Some sd →
      f a sd = Normal None → error a = None →
      Fate w s (EvAction a)
        (closedWith (acc s ++ [a]) ((Next <$> acc s ++ [a]) ++ [Complete]) s)
  | fate_error_action a f sd e :
      closed s = false →
      wakeFn (model w) = Some f → syncData (model w) = Some sd →
      f a sd = Normal None → error a = Some e →
      Fate w s (EvAction a) (closedWith (acc s) [Error e] s)
  | fate_predicate_error a f sd e :
      closed s = false →
      wakeFn (model w) = Some f → syncData (model w) = Some sd →
      f a sd = Throw e →
      Fate w s (EvAction a) (closedWith (acc s) [Error e] s)
  | fate_timeout ms :
      closed s = false →
      (0 < timeout s)%Z →
      (since s + timerDelay (timeout s) ≤ now w + Z.of_nat ms)%Z →
      Fate w s (EvElapse ms)
        (closedWith (acc s) [Error (timeoutError (timeout s))] s)
  | fate_waiting ms :
      closed s = false →
      ¬ (0 < timeout s
         ∧ since s + timerDelay (timeout s) ≤ now w + Z.of_nat ms)%Z →
      Fate w s (EvElapse ms) s.

(** *** A suspension told by its wake predicate

    The docstring of [suspendWithTimeout] describes a suspension by the
    answers of [wakeFn] alone: the same object keeps the model suspended and
    sends nothing, a changed object keeps it suspended and sends the action,
    [null] wakes the model up. [episode] follows that description over the
    actions that arrive, starting from what a subscription has buffered. *)
Inductive Episode : Type :=
  | StillSuspended (buffer : list Action) (sd : U)
  | WokenUp (delivered : list Action)
  | Broken (e : JsError).

Fixpoint episode (f : WakeFn) (sd : U) (buffer : list Action)
    (actions : list Action) : Episode :=
  match actions with
  | [] => StillSuspended buffer sd
  | a :: rest =>
      match f a sd with
      | Normal (Some v) =>
          if decide (v = sd) then episode f sd buffer rest
          else episode f v (buffer ++ [a]) rest
      | Normal None =>
          match error a with
          | Some e => Broken e
          | None => WokenUp (buffer ++ [a])
          end
      | Throw e => Broken e
      end
  end.

(** What has become of a buffer that a subscription held at some point:
    the subscription is still open, has received nothing and holds the
    buffer followed by what it has buffered since; or it ended with an
    error and the buffer is lost; or it completed and received the buffer,
    followed by what came later, and then the completion. *)
Definition carries (buffer : list Action) (s : Subscriber) : Prop :=
  (closed s = false ∧ received s = [] ∧ ∃ more, acc s = buffer ++ more)
  ∨ (closed s = true ∧ ∃ e, received s = [Error e])
  ∨ (closed s = true
     ∧ ∃ more, received s = (Next <$> buffer ++ more) ++ [Complete]).

(** What an observer of a well-behaved stream has seen: nothing yet, or one
    error, or some values and then the completion. *)
Definition streamShape (s : Subscriber) : Prop :=
  (closed s = false ∧ received s = [])
  ∨ (closed s = true ∧ ∃ e, received s = [Error e])
  ∨ (closed s = true ∧ ∃ actions, received s = (Next <$> actions) ++ [Complete]).

End StatelessModel.

Arguments Next {A} a.
Arguments Error {A} e.
Arguments Complete {A}.

(** *** A model waiting for its data

    State, synchronisation value: natural numbers; no payload. The model
    counts [PROGRESS] actions while suspended, wakes up on [READY] and has
    a predicate that breaks on [BOOM]. *)

Definition act (n : string) : @Action unit :=
  {| name := n; payload := None; error := None; isSideEffect := None |}.

Definition failing (n : string) (e : JsError) : @Action unit :=
  {| name := n; payload := None; error := Some e; isSideEffect := None |}.

Definition waitReady : @WakeFn nat unit :=
  λ a sd,
    if String.eqb (name a) "READY" then Normal None
    else if String.eqb (name a) "PROGRESS" then Normal (Some (S sd))
    else if String.eqb (name a) "BOOM" then Throw (NewError "boom")
    else Normal (Some sd).

(** The members of [Object.prototype], for models over natural numbers.
    [constructor] is [Object]: called on a state it returns that state and
    dispatches nothing. Calling one of the other members as a reducer or as
    a producer throws or returns a string; no run below makes such a call,
    and the entries only record that reads of these names find something. *)
Definition objectMember : @IReducer nat unit * @ISideEffectHandler nat unit :=
  (λ st _, st, λ _ _ _, ret tt).

Definition objectPrototypeNames : list string :=
  ["constructor"; "hasOwnProperty"; "isPrototypeOf"; "propertyIsEnumerable";
   "toLocaleString"; "toString"; "valueOf"; "__proto__"; "__defineGetter__";
   "__defineSetter__"; "__lookupGetter__"; "__lookupSetter__"].

#[global] Instance natObjectPrototype : @ObjectPrototype nat unit :=
  {| objectPrototype :=
       list_to_map ((λ n, (n, objectMember)) <$> objectPrototypeNames) |}.

(** [model.suspendWithTimeout(50, 0, waitReady).subscribe(...)]. *)
Definition waiting : @World nat nat unit :=
  run [EvSuspend 50 0 waitReady; EvSubscribe (WakeEvents 0 50)] (newWorld 0).

Definition progressed : @World nat nat unit :=
  run [EvAction (act "PROGRESS")] waiting.

(** *** A counter model and its registry *)

Definition inc : @INewStateReducer nat unit := λ st _, S st.

Definition double : @INewStateReducer nat unit := λ st _, st + st.

Definition save : @ISideEffectHandler nat unit :=
  λ _ _ dispatch, dispatch (act "SAVED").

(** A model that has been given no handler yet. *)
Definition blank : @StatelessModel nat nat unit := newModel 0.

Definition counter : @StatelessModel nat nat unit :=
  snd (addActionHandler "INC" (Some inc) (Some save) (newModel 0)).

Definition sideEffectOnly : @StatelessModel nat nat unit :=
  snd (addActionHandler "SAVE" None (Some save) (newModel 0)).

(** A [PROGRESS] action that can be told from [act "PROGRESS"]. *)
Definition earlyProgress : @Action unit :=
  {| name := "PROGRESS"; payload := Some tt; error := None;
     isSideEffect := None |}.

(** A subtype of actions: those that come from a side effect. *)
Definition fromSideEffect : @Action unit → bool :=
  λ a, truthy (isSideEffect a).

Definition firstSubscriber : @Subscriber unit := freshSubscriber (Some 0) 50 0.

End Model.

(** * Properties of the dispatcher *)

Module MainFacts.
Import Main.

Section Facts.

Context {Payload T : Type}.

Local Abbreviation Action := (@Main.Action Payload) (only parsing).
Local Abbreviation IReducer := (@Main.IReducer Payload T) (only parsing).

(** C3: while an action flagged [isSideEffect] is processed, every call of
    the dispatch helper given to the side-effect handler throws
    'Nested side-effect not allowed' and pushes nothing into the
    dispatcher; while an action whose flag is not set is processed, the
    helper dispatches a copy of the new action flagged [isSideEffect = true].
    Both facts are also stated through [scanStep] for a handler that calls
    the helper once. *)
Theorem nested_side_effect_guard (model : IReducer) (state : T)
    (action seAction : Action) (q : list Action) :
  (isSideEffect action = Some true →
     seDispatch action seAction q
       = (Throw (NewError "Nested side-effect not allowed"), q)
     ∧ scanStep model (Some (dispatchOnce seAction)) state (Some action) q
       = (Throw (NewError "Nested side-effect not allowed"), q))
  ∧ (truthy (isSideEffect action) = false →
     ∃ sent : Action,
       isSideEffect sent = Some true
       ∧ type sent = type seAction
       ∧ payload sent = payload seAction
       ∧ error sent = error seAction
       ∧ seDispatch action seAction q = (Normal tt, q ++ [sent])
       ∧ scanStep model (Some (dispatchOnce seAction)) state (Some action) q
         = (Normal (reduce model state action), q ++ [sent])).
Proof.
  split.
  - intros Hflag.
    assert (Hse : seDispatch action seAction q
                  = (Throw (NewError "Nested side-effect not allowed"), q)).
    { unfold seDispatch. rewrite Hflag. reflexivity. }
    split; [exact Hse|].
    unfold scanStep, dispatchOnce, bind. rewrite Hse. reflexivity.
  - intros Hflag.
    eexists {| isSideEffect := Some true; type := type seAction;
               payload := payload seAction; error := error seAction |}.
    repeat split.
    + unfold seDispatch. rewrite Hflag. reflexivity.
    + unfold scanStep, dispatchOnce, bind, seDispatch.
      rewrite Hflag. reflexivity.
Qed.

(** X1: side-effect chains are one level deep. Whatever a handler
    dispatches while a user action is processed is a side-effect action,
    and a handler that tries to dispatch while that action is processed in
    turn gets the nested side-effect error, the queue staying as it is. *)
Theorem side_effect_chain_depth_one (model model' : IReducer) (state state' : T)
    (action first second : Action) (q : list Action) :
  isUIAction action = true →
  ∃ sent q',
    scanStep model (Some (dispatchOnce first)) state (Some action) q
      = (Normal (reduce model state action), q')
    ∧ q' = q ++ [sent]
    ∧ isSideEffectAction sent = true ∧ isUIAction sent = false
    ∧ type sent = type first
    ∧ scanStep model' (Some (dispatchOnce second)) state' (Some sent) q'
      = (Throw (NewError "Nested side-effect not allowed"), q').
Proof.
  unfold isUIAction. intros Hui%negb_true_iff.
  eexists {| isSideEffect := Some true; type := type first;
             payload := payload first; error := error first |}, _.
  split.
  { unfold scanStep, dispatchOnce, bind, seDispatch. rewrite Hui. reflexivity. }
  repeat split.
Qed.

Lemma scanAll_no_handler (model : IReducer) (state : T) (actions : list Action)
    (q : list Action) :
  scanAll model state (Some <$> actions) q
    = ((runningStates model state actions, None), q).
Proof.
  revert state. induction actions as [|a rest IH]; intros state; [done|].
  simpl. unfold ret. rewrite IH. reflexivity.
Qed.

(** X2: a model registered without a side-effect handler passes to
    [state$] the initial state and then the running left fold of its
    reducer over the actions it observes, one state per action and in
    order; the stream does not fail and nothing is dispatched. *)
Theorem registerReducer_without_side_effects (model : IReducer)
    (initialState : T) (observed : list Action) (q : list Action) :
  ∃ states,
    registerReducer model initialState observed q = ((states, None), q)
    ∧ states = initialState :: runningStates model initialState observed
    ∧ length states = S (length observed)
    ∧ last states
      = Some (foldl (reduce model) initialState observed).
Proof.
  eexists. split.
  { unfold registerReducer. simpl. unfold ret.
    rewrite scanAll_no_handler. reflexivity. }
  split; [reflexivity|]. split.
  - simpl. f_equal. generalize initialState.
    induction observed as [|a rest IH]; intros st; simpl; [done|].
    by rewrite IH.
  - generalize initialState.
    induction observed as [|a rest IH]; intros st; [done|].
    simpl foldl. rewrite <- IH. simpl runningStates.
    rewrite !last_cons. destruct (last (runningStates model (reduce model st a) rest)); done.
Qed.

End Facts.

Lemma nested_side_effect_guard_witness :
  seDispatch seAction uiAction [uiAction]
    = (Throw (NewError "Nested side-effect not allowed"), [uiAction])
  ∧ ∃ sent : @Action unit,
      isSideEffect sent = Some true
      ∧ scanStep countActions (Some (dispatchOnce seAction)) 0 (Some uiAction) []
        = (Normal 1, [sent]).
Proof.
  split.
  - apply (nested_side_effect_guard countActions 0 seAction uiAction [uiAction]).
    reflexivity.
  - destruct (proj2 (nested_side_effect_guard countActions 0 uiAction seAction [])
                eq_refl)
      as (sent & Hflag & _ & _ & _ & _ & Hscan).
    exists sent. split; [exact Hflag | exact Hscan].
Defined.

Lemma side_effect_chain_depth_one_witness :
  ∃ sent q',
    scanStep countActions (Some (dispatchOnce seAction)) 0 (Some uiAction) []
      = (Normal (reduce countActions 0 uiAction), q')
    ∧ q' = [] ++ [sent]
    ∧ isSideEffectAction sent = true ∧ isUIAction sent = false
    ∧ type sent = type seAction
    ∧ scanStep countActions (Some (dispatchOnce uiAction)) 7 (Some sent) q'
      = (Throw (NewError "Nested side-effect not allowed"), q').
Proof.
  apply (side_effect_chain_depth_one countActions countActions 0 7 uiAction
           seAction uiAction []).
  reflexivity.
Defined.

(** Three actions counted from 0: four snapshots, the last one 3. *)
Example three_actions_counted :
  registerReducer countActions 0 [uiAction; uiAction; uiAction] []
    = (([0; 1; 2; 3], None), []).
Proof. reflexivity. Qed.

End MainFacts.

(** * Properties of stateless models *)

Module ModelFacts.
Import Model.

Section Facts.

Context {T U Payload : Type} `{EqDecision U} `{!@ObjectPrototype T Payload}.

Local Abbreviation Action := (@Model.Action Payload) (only parsing).
Local Abbreviation WakeFn := (@Model.WakeFn U Payload) (only parsing).
Local Abbreviation StatelessModel := (@Model.StatelessModel T U Payload) (only parsing).
Local Abbreviation INewStateReducer := (@Model.INewStateReducer T Payload) (only parsing).
Local Abbreviation ISideEffectHandler := (@Model.ISideEffectHandler T Payload) (only parsing).
Local Abbreviation Subscriber := (@Model.Subscriber Payload) (only parsing).
Local Abbreviation World := (@Model.World T U Payload) (only parsing).
Local Abbreviation Event := (@Model.Event U Payload) (only parsing).

(** *** What one call of [wakeUp] computes *)

Ltac run_eff :=
  unfold wakeUp, suspend, suspendWithTimeout, onWakeEvents, callWakeFn,
    tryCatch, bind, get, modify, ret, throw; simpl.

Lemma wakeUp_inactive (a : Action) (w : World) :
  wakeFn (model w) = None → wakeUp a w = (Normal tt, w).
Proof. intros Hf. run_eff. rewrite Hf. reflexivity. Qed.

Lemma wakeUp_same (a : Action) (w : World) (f : WakeFn) (sd : U) :
  wakeFn (model w) = Some f → syncData (model w) = Some sd →
  f a sd = Normal (Some sd) →
  wakeUp a w = (Normal tt, w).
Proof.
  intros Hf Hsd Hans. run_eff. rewrite Hf, Hsd, Hans.
  destruct (decide (sd = sd)) as [_|Hne]; [reflexivity | contradiction].
Qed.

Lemma wakeUp_forward (a : Action) (w : World) (f : WakeFn) (sd v : U) (ref : nat) :
  suspendedOn w f sd ref → f a sd = Normal (Some v) → v ≠ sd →
  wakeUp a w
    = (Normal tt, setModel (setSyncData (Some v) (model w)) (notify ref (Next a) w)).
Proof.
  intros (Hf & Hsd & Hev & sj & Hsj & Hlive) Hans Hne. run_eff.
  rewrite Hf, Hsd, Hans.
  destruct (decide (v = sd)) as [Heq|_]; [contradiction|].
  rewrite Hev. unfold Subject_next. rewrite Hsj, Hlive. reflexivity.
Qed.

Lemma wakeUp_wake (a : Action) (w : World) (f : WakeFn) (sd : U) (ref : nat) :
  suspendedOn w f sd ref → f a sd = Normal None → error a = None →
  wakeUp a w
    = (Normal tt,
       Subject_complete ref
         (notify ref (Next a) (setModel (setWakeFn None (model w)) w))).
Proof.
  intros (Hf & Hsd & Hev & sj & Hsj & Hlive) Hans Herr. run_eff.
  rewrite Hf, Hsd, Hans, Herr. simpl. rewrite Hev.
  unfold Subject_next. simpl. rewrite Hsj, Hlive. simpl.
  rewrite Hev. reflexivity.
Qed.

Lemma wakeUp_wake_error (a : Action) (w : World) (f : WakeFn) (sd : U)
    (ref : nat) (e : JsError) :
  wakeFn (model w) = Some f → syncData (model w) = Some sd →
  wakeEvents (model w) = Some ref →
  f a sd = Normal None → error a = Some e →
  wakeUp a w
    = (Normal tt, Subject_error e ref (setModel (setWakeFn None (model w)) w)).
Proof.
  intros Hf Hsd Hev Hans Herr. run_eff.
  rewrite Hf, Hsd, Hans, Herr. simpl. rewrite Hev. reflexivity.
Qed.

Lemma wakeUp_throw (a : Action) (w : World) (f : WakeFn) (sd : U)
    (ref : nat) (e : JsError) :
  wakeFn (model w) = Some f → syncData (model w) = Some sd →
  wakeEvents (model w) = Some ref →
  f a sd = Throw e →
  wakeUp a w
    = (Normal tt, Subject_error e ref (setModel (setWakeFn None (model w)) w)).
Proof.
  intros Hf Hsd Hev Hans. run_eff.
  rewrite Hf, Hsd, Hans. simpl. rewrite Hev. reflexivity.
Qed.

(** *** What a notification does to each subscriber *)

Lemma notify_lookup (ref : nat) (n : Notification Action) (w : World) (i : nat) :
  subscribers (notify ref n w) !! i
    = (λ s, if isObserver ref s then deliver n s else s) <$> (subscribers w !! i).
Proof. unfold notify. simpl. apply list_lookup_fmap. Qed.

Lemma deliver_not_observer (ref : nat) (n : Notification Action) (s : Subscriber) :
  terminal n = true → isObserver ref (deliver n s) = false.
Proof.
  intros Hterm. unfold isObserver, deliver.
  destruct (reduceOp (acc s) n). simpl. rewrite Hterm, orb_true_r.
  apply andb_false_r.
Qed.

Lemma deliver_Next (a : Action) (s : Subscriber) :
  closed s = false →
  deliver (Next a) s
    = {| source := source s; timeout := timeout s; since := since s;
         acc := acc s ++ [a]; closed := false; received := received s |}.
Proof.
  intros Hopen. unfold deliver. simpl. rewrite Hopen, app_nil_r. reflexivity.
Qed.

Lemma deliver_Error (e : JsError) (s : Subscriber) :
  deliver (Error e) s
    = {| source := source s; timeout := timeout s; since := since s;
         acc := acc s; closed := true; received := received s ++ [Error e] |}.
Proof. unfold deliver. simpl. rewrite orb_true_r. reflexivity. Qed.

Lemma deliver_Complete (s : Subscriber) :
  deliver Complete s
    = {| source := source s; timeout := timeout s; since := since s;
         acc := acc s; closed := true;
         received := received s ++ (Next <$> acc s) ++ [Complete] |}.
Proof.
  unfold deliver. simpl. rewrite orb_true_r, ?app_nil_r. reflexivity.
Qed.

Lemma isObserver_open (ref : nat) (s : Subscriber) :
  isObserver ref s = true → source s = Some ref ∧ closed s = false.
Proof.
  unfold isObserver. intros [Hsrc Hopen]%andb_true_iff.
  apply bool_decide_eq_true in Hsrc. apply negb_true_iff in Hopen. done.
Qed.

Lemma isObserver_deliver_Next (ref : nat) (a : Action) (s : Subscriber) :
  isObserver ref s = true → isObserver ref (deliver (Next a) s) = true.
Proof.
  intros Hobs. destruct (isObserver_open _ _ Hobs) as [Hsrc Hopen].
  rewrite deliver_Next by done. unfold isObserver. simpl.
  rewrite bool_decide_eq_true_2 by done. reflexivity.
Qed.

(** *** Registration *)

Ltac run_registry :=
  unfold replaceActionHandler, addActionHandler, installReducer,
    installSideEffect, bind, get, modify, ret, throw; simpl.

Lemma inheritedReducers_lookup (k : string) :
  inheritedReducers !! k = fst <$> objectPrototype !! k.
Proof. unfold inheritedReducers. apply lookup_fmap. Qed.

Lemma inheritedSideEffects_lookup (k : string) :
  inheritedSideEffects !! k = snd <$> objectPrototype !! k.
Proof. unfold inheritedSideEffects. apply lookup_fmap. Qed.

Lemma deleteProperty_lookup {V : Type} (inherited obj : gmap string V)
    (k other : string) :
  deleteProperty inherited k obj !! other
    = if decide (k = other) then inherited !! k else obj !! other.
Proof.
  unfold deleteProperty. destruct (decide (k = other)) as [<-|Hne].
  - destruct (inherited !! k); [apply lookup_insert_eq|apply lookup_delete_eq].
  - destruct (inherited !! k);
      [by rewrite lookup_insert_ne|by rewrite lookup_delete_ne].
Qed.

(** Duplicates are rejected by [addActionHandler]; for an action name that
    is not a member of [Object.prototype], [replaceActionHandler] returns
    normally and leaves the name bound to exactly the handlers supplied (to
    none where none was supplied), every other name being left as it
    was. *)
Lemma duplicate_rejected_replace_overrides (m : StatelessModel)
    (actionName : string) (reducer : option INewStateReducer)
    (seProducer : option ISideEffectHandler) :
  (is_Some reducer → is_Some (actionMatch m !! actionName) →
     addActionHandler actionName reducer seProducer m
       = (Throw (reducerDefined actionName), m))
  ∧ (is_Some seProducer → is_Some (sideEffectMatch m !! actionName) →
     ∃ e m', addActionHandler actionName reducer seProducer m = (Throw e, m')
             ∧ (e = reducerDefined actionName ∨ e = sideEffectDefined actionName))
  ∧ (objectPrototype !! actionName = None →
     ∃ m', replaceActionHandler actionName reducer seProducer m
            = (Normal (createHandlerModifier actionName), m')
      ∧ actionMatch m' !! actionName = produce <$> reducer
      ∧ sideEffectMatch m' !! actionName = seProducer
      ∧ (∀ st a, name a = actionName →
           reduce m' st a = match reducer with Some r => r st a | None => st end)
      ∧ (∀ other, other ≠ actionName →
           actionMatch m' !! other = actionMatch m !! other
           ∧ sideEffectMatch m' !! other = sideEffectMatch m !! other)).
Proof.
  split; [|split].
  - intros [r ->] [old Hold]. run_registry. rewrite Hold. reflexivity.
  - intros [se ->] [old Hold]. run_registry.
    destruct reducer as [r|]; simpl.
    + destruct (actionMatch m !! actionName) as [oldr|] eqn:Hr; simpl.
      * eauto.
      * rewrite Hold. eauto.
    + rewrite Hold. eauto.
  - intros Hown.
    assert (Hr : ∀ obj, deleteProperty inheritedReducers actionName obj
                          !! actionName = None).
    { intros obj. rewrite deleteProperty_lookup, decide_True by done.
      by rewrite inheritedReducers_lookup, Hown. }
    assert (Hs : ∀ obj, deleteProperty inheritedSideEffects actionName obj
                          !! actionName = None).
    { intros obj. rewrite deleteProperty_lookup, decide_True by done.
      by rewrite inheritedSideEffects_lookup, Hown. }
    run_registry.
    destruct reducer as [r|], seProducer as [se|]; simpl;
      rewrite ?Hr, ?Hs; simpl; rewrite ?Hr, ?Hs; simpl;
      eexists; (split; [reflexivity|]); simpl;
      rewrite ?lookup_insert_eq, ?Hr, ?Hs;
      (split; [reflexivity|]); (split; [reflexivity|]); split.
    all: try (intros st a Ha; unfold reduce; simpl; rewrite Ha,
                ?lookup_insert_eq, ?Hr; reflexivity).
    all: intros other Hne;
      rewrite ?lookup_insert_ne, ?deleteProperty_lookup, ?decide_False by done;
      done.
Qed.

(** For a member of [Object.prototype] the deletion in
    [replaceActionHandler] has no effect on what is read: the inherited
    member shows again, and the registration that follows is rejected as a
    duplicate. *)
Lemma replace_inherited_rejected (m : StatelessModel) (actionName : string)
    (member : IReducer * ISideEffectHandler) (r : INewStateReducer)
    (se : ISideEffectHandler) (seProducer : option ISideEffectHandler) :
  objectPrototype !! actionName = Some member →
  (∃ m', replaceActionHandler actionName (Some r) seProducer m
           = (Throw (reducerDefined actionName), m')
         ∧ actionMatch m' !! actionName = Some member.1)
  ∧ (∃ m', replaceActionHandler actionName None (Some se) m
             = (Throw (sideEffectDefined actionName), m')
           ∧ sideEffectMatch m' !! actionName = Some member.2).
Proof.
  intros Hin.
  assert (Hr : ∀ obj, deleteProperty inheritedReducers actionName obj
                        !! actionName = Some member.1).
  { intros obj. rewrite deleteProperty_lookup, decide_True by done.
    by rewrite inheritedReducers_lookup, Hin. }
  assert (Hs : ∀ obj, deleteProperty inheritedSideEffects actionName obj
                        !! actionName = Some member.2).
  { intros obj. rewrite deleteProperty_lookup, decide_True by done.
    by rewrite inheritedSideEffects_lookup, Hin. }
  split; run_registry.
  - rewrite Hr. simpl. eexists. split; [reflexivity|]. simpl. apply Hr.
  - rewrite Hs. simpl. eexists. split; [reflexivity|]. simpl. apply Hs.
Qed.

(** C10: a call of [addActionHandler] that brings a reducer for a name
    without one and a side-effect producer for a name that already has one
    throws the duplicate side-effect error, and the new reducer is
    registered all the same: it stays in [actionMatch] and [reduce] uses
    it. The side-effect registry is unchanged. *)
Theorem addActionHandler_not_atomic (m : StatelessModel) (actionName : string)
    (r : INewStateReducer) (se old : ISideEffectHandler) :
  actionMatch m !! actionName = None →
  sideEffectMatch m !! actionName = Some old →
  ∃ m', addActionHandler actionName (Some r) (Some se) m
          = (Throw (sideEffectDefined actionName), m')
    ∧ actionMatch m' !! actionName = Some (produce r)
    ∧ sideEffectMatch m' = sideEffectMatch m
    ∧ ∀ st a, name a = actionName → reduce m' st a = r st a.
Proof.
  intros Hnone Hold. run_registry. rewrite Hnone. simpl. rewrite Hold.
  eexists. split; [reflexivity|]. simpl. rewrite lookup_insert_eq.
  repeat split.
  intros st a Ha. unfold reduce. simpl. rewrite Ha, lookup_insert_eq.
  reflexivity.
Qed.

(** *** One action delivered to a suspended model *)

(** C7: on a model that is already suspended, [suspendWithTimeout] and
    [suspend] return an Observable that fails with 'The model is already
    suspended.' as soon as it is subscribed, and leave the model, with its
    wake predicate and synchronisation value, as it was. *)
Theorem second_suspend_fails (w : World) (f0 f : WakeFn) (ms : Z) (sd : U) :
  wakeFn (model w) = Some f0 →
  suspendWithTimeout ms sd f w = (Normal (ThrowError alreadySuspended), w)
  ∧ suspend sd f w = (Normal (ThrowError alreadySuspended), w)
  ∧ ∃ s, subscribers (subscribe (ThrowError alreadySuspended) w)
           !! length (subscribers w) = Some s
         ∧ received s = [Error alreadySuspended] ∧ closed s = true.
Proof.
  intros Hf. repeat split.
  - run_eff. rewrite Hf. reflexivity.
  - run_eff. rewrite Hf. reflexivity.
  - eexists. split.
    + unfold subscribe. simpl. rewrite lookup_app_r by lia.
      rewrite Nat.sub_diag. reflexivity.
    + rewrite deliver_Error. simpl. done.
Qed.

(** C4: when the wake predicate answers with the synchronisation value it
    was given, [wakeUp] changes nothing at all: the model stays suspended
    with the same value and the same state, and no subscription buffers or
    receives the action. *)
Theorem same_answer_changes_nothing (w : World) (f : WakeFn) (sd : U) (A : Action) :
  wakeFn (model w) = Some f → syncData (model w) = Some sd →
  f A sd = Normal (Some sd) →
  ∃ w', wakeUp A w = (Normal tt, w')
    ∧ isActive (model w') = false
    ∧ syncData (model w') = Some sd
    ∧ subscribers w' = subscribers w
    ∧ getState (model w') = getState (model w)
    ∧ w' = w.
Proof.
  intros Hf Hsd Hans. exists w.
  rewrite (wakeUp_same A w f sd) by done.
  unfold isActive. rewrite Hf. done.
Qed.

(** C6: when the wake predicate answers [null], the model is active again.
    Every live subscription is closed by this call: it receives the error
    alone when the action carries one; otherwise it receives the actions it
    had buffered, then the waking action once, then the completion. *)
Theorem null_answer_wakes_model (w : World) (f : WakeFn) (sd : U)
    (ref : nat) (A : Action) :
  suspendedOn w f sd ref → f A sd = Normal None →
  ∃ w', wakeUp A w = (Normal tt, w')
    ∧ isActive (model w') = true
    ∧ ∀ i s, subscribers w !! i = Some s → isObserver ref s = true →
        ∃ s', subscribers w' !! i = Some s'
          ∧ closed s' = true
          ∧ received s' = received s ++
              match error A with
              | Some e => [Error e]
              | None => (Next <$> acc s) ++ [Next A; Complete]
              end.
Proof.
  intros Hsusp Hans. destruct (error A) as [e|] eqn:Herr.
  - destruct Hsusp as (Hf & Hsd & Hev & _).
    eexists. split; [by eapply wakeUp_wake_error|].
    split; [reflexivity|].
    intros i s Hs Hobs. unfold Subject_error.
    rewrite notify_lookup. simpl. rewrite Hs. simpl. rewrite Hobs.
    eexists. split; [reflexivity|]. rewrite deliver_Error. done.
  - eexists. split; [by eapply wakeUp_wake|].
    split; [reflexivity|].
    intros i s Hs Hobs. unfold Subject_complete, notify. simpl.
    rewrite !list_lookup_fmap, Hs. simpl.
    rewrite Hobs, isObserver_deliver_Next by done.
    eexists. split; [reflexivity|].
    destruct (isObserver_open _ _ Hobs) as [_ Hopen].
    rewrite deliver_Complete, deliver_Next by done. simpl.
    rewrite fmap_app, <- app_assoc. done.
Qed.

(** C8: when the wake predicate throws, [wakeUp] itself completes
    normally, the model is active again, and every live subscription is
    closed with the thrown value as its error, receiving nothing else. *)
Theorem throwing_predicate_wakes_model (w : World) (f : WakeFn) (sd : U)
    (ref : nat) (A : Action) (e : JsError) :
  suspendedOn w f sd ref → f A sd = Throw e →
  ∃ w', wakeUp A w = (Normal tt, w')
    ∧ isActive (model w') = true
    ∧ ∀ i s, subscribers w !! i = Some s → isObserver ref s = true →
        ∃ s', subscribers w' !! i = Some s'
          ∧ closed s' = true
          ∧ received s' = received s ++ [Error e].
Proof.
  intros (Hf & Hsd & Hev & _) Hans.
  eexists. split; [by eapply wakeUp_throw|].
  split; [reflexivity|].
  intros i s Hs Hobs. unfold Subject_error.
  rewrite notify_lookup. simpl. rewrite Hs. simpl. rewrite Hobs.
  eexists. split; [reflexivity|]. rewrite deliver_Error. done.
Qed.

Lemma Inv_new (initialState : T) : Inv (newWorld initialState : World).
Proof.
  split; simpl.
  - intros f Hf. discriminate.
  - intros ref (sj & Hsj & _). by destruct ref.
  - intros i s Hs. by destruct i.
  - intros i s ref Hs. by destruct i.
  - intros i s ref Hs. by destruct i.
Qed.

(** In a consistent world every open subscription listens to the subject
    of the running suspension. *)
Lemma open_is_observer (w : World) (f : WakeFn) (sd : U) (ref : nat)
    (i : nat) (s : Subscriber) :
  Inv w → suspendedOn w f sd ref →
  subscribers w !! i = Some s → closed s = false →
  isObserver ref s = true.
Proof.
  intros HI (_ & _ & Hev & _) Hs Hopen.
  destruct (inv_open w HI i s Hs Hopen) as (_ & r & Hsrc & Hlive).
  destruct (inv_live w HI r Hlive) as [Hr _].
  assert (r = ref) as -> by congruence.
  unfold isObserver. rewrite bool_decide_eq_true_2, Hopen by done. done.
Qed.

Lemma open_needs_suspension (w : World) (i : nat) (s : Subscriber) :
  Inv w → subscribers w !! i = Some s → closed s = false →
  ∃ f sd ref, suspendedOn w f sd ref.
Proof.
  intros HI Hs Hopen.
  destruct (inv_open w HI i s Hs Hopen) as (_ & r & _ & Hlive).
  destruct (inv_live w HI r Hlive) as [_ [f Hf]].
  destruct (inv_suspended w HI f Hf) as (sd & ref & Hsusp). eauto.
Qed.

Lemma fire_cases (t : Z) (s : Subscriber) :
  (fire t s = s
   ∧ (closed s = true
      ∨ ¬ (0 < timeout s ∧ since s + timerDelay (timeout s) ≤ t)%Z))
  ∨ (closed s = false ∧ (0 < timeout s)%Z
     ∧ (since s + timerDelay (timeout s) ≤ t)%Z
     ∧ fire t s = deliver (Error (timeoutError (timeout s))) s).
Proof.
  unfold fire. destruct (closed s) eqn:Hc; [left; auto|].
  destruct (bool_decide (0 < timeout s)%Z) eqn:H1; simpl.
  - destruct (bool_decide (since s + timerDelay (timeout s) ≤ t)%Z) eqn:H2; simpl.
    + right. apply bool_decide_eq_true in H1, H2. done.
    + left. apply bool_decide_eq_false in H2. split; [done|]. right. tauto.
  - left. apply bool_decide_eq_false in H1. split; [done|]. right. tauto.
Qed.

Lemma suspend_active (ms : Z) (sd : U) (f : WakeFn) (w : World) :
  wakeFn (model w) = None →
  ∃ w', suspendWithTimeout ms sd f w
          = (Normal (WakeEvents (length (subjects w)) ms), w')
    ∧ wakeFn (model w') = Some f
    ∧ syncData (model w') = Some sd
    ∧ wakeEvents (model w') = Some (length (subjects w))
    ∧ subjects w'
        = subjects w ++ [{| isStopped := false; thrownError := None |}]
    ∧ subscribers w' = subscribers w.
Proof.
  intros Hf. run_eff. rewrite Hf. eexists. split; [reflexivity|]. done.
Qed.

Lemma Inv_suspend (ms : Z) (sd : U) (f : WakeFn) (w : World) :
  Inv w → Inv (snd (suspendWithTimeout ms sd f w)).
Proof.
  intros HI. destruct (wakeFn (model w)) as [f0|] eqn:Hf.
  { run_eff. rewrite Hf. exact HI. }
  destruct (suspend_active ms sd f w Hf)
    as (w' & -> & Hf' & Hsd' & Hev' & Hsj' & Hsubs').
  simpl.
  assert (Hdead : ∀ ref, ref < length (subjects w) → ¬ live w' ref).
  { intros ref Hlt (sj & Hl & Hlive). rewrite Hsj', lookup_app_l in Hl by done.
    destruct (inv_live w HI ref) as [_ [f0 Hf0]]; [by exists sj|congruence]. }
  split.
  - intros f1 Hf1. exists sd, (length (subjects w)).
    repeat split; [congruence|done|done|].
    eexists. rewrite Hsj'. split; [by apply list_lookup_middle|done].
  - intros ref Hlive. rewrite Hf', Hev'.
    destruct (decide (ref < length (subjects w))) as [Hlt|Hge].
    + destruct (Hdead ref Hlt Hlive).
    + destruct Hlive as (sj & Hl & _). apply lookup_lt_Some in Hl.
      rewrite Hsj', length_app in Hl. simpl in Hl.
      assert (ref = length (subjects w)) as -> by lia. by eauto.
  - intros i s Hs Hopen. rewrite Hsubs' in Hs.
    destruct (inv_open w HI i s Hs Hopen) as (_ & r & _ & Hlive).
    destruct (inv_live w HI r Hlive) as [_ [f0 Hf0]]. congruence.
  - intros i s ref Hs Hsrc Hlive. rewrite Hsubs' in Hs.
    destruct (Hdead ref (inv_source w HI i s ref Hs Hsrc) Hlive).
  - intros i s ref Hs Hsrc. rewrite Hsubs' in Hs.
    pose proof (inv_source w HI i s ref Hs Hsrc). rewrite Hsj', length_app. lia.
Qed.

Lemma newSubscriber_source (ref : nat) (ms : Z) (w : World) :
  source (newSubscriber (WakeEvents ref ms) w) = Some ref.
Proof.
  unfold newSubscriber. destruct (subjects w !! ref) as [sj|]; [|done].
  destruct (thrownError sj); [by rewrite deliver_Error|].
  destruct (isStopped sj); [by rewrite deliver_Complete|done].
Qed.

Lemma Inv_subscribe (o : Observable) (w : World) :
  Inv w → enabled w (EvSubscribe o) → Inv (subscribe o w).
Proof.
  intros HI Hen. split.
  - exact (inv_suspended w HI).
  - exact (inv_live w HI).
  - intros i s [[_ Hs]|[_ <-]]%lookup_snoc_Some Hopen.
    { exact (inv_open w HI i s Hs Hopen). }
    revert Hopen. destruct o as [e|ref ms]; unfold newSubscriber;
      [by rewrite deliver_Error|].
    simpl in Hen. apply lookup_lt_is_Some_2 in Hen as [sj Hsj]. rewrite Hsj.
    destruct (thrownError sj); [by rewrite deliver_Error|].
    destruct (isStopped sj) eqn:Hstop; [by rewrite deliver_Complete|].
    intros _. split; [done|]. exists ref. split; [done|]. by exists sj.
  - intros i s ref [[_ Hs]|[_ <-]]%lookup_snoc_Some Hsrc Hlive.
    { exact (inv_quiet w HI i s ref Hs Hsrc Hlive). }
    revert Hsrc. destruct o as [e|r ms]; unfold newSubscriber;
      [by rewrite deliver_Error|].
    destruct (subjects w !! r) as [sj|] eqn:Hsj; [|by left].
    destruct (thrownError sj); [rewrite deliver_Error; simpl; by eauto|].
    destruct (isStopped sj) eqn:Hstop; [|by left].
    rewrite deliver_Complete. simpl. intros [= <-].
    destruct Hlive as (sj' & Hsj' & Hlive). unfold subscribe in Hsj'.
    simpl in Hsj'. congruence.
  - intros i s ref [[_ Hs]|[_ <-]]%lookup_snoc_Some Hsrc.
    { exact (inv_source w HI i s ref Hs Hsrc). }
    revert Hsrc. destruct o as [e|r ms];
      [by unfold newSubscriber; rewrite deliver_Error|].
    rewrite newSubscriber_source. intros [= <-]. exact Hen.
Qed.

Lemma Inv_elapse (ms : nat) (w : World) : Inv w → Inv (elapse ms w).
Proof.
  intros HI. split.
  - exact (inv_suspended w HI).
  - exact (inv_live w HI).
  - intros i s Hs Hopen. unfold elapse in Hs. simpl in Hs.
    apply list_lookup_fmap_Some in Hs as (s0 & -> & Hs0).
    destruct (fire_cases (now w + Z.of_nat ms) s0) as [[Heq _]|(_ & _ & _ & Heq)];
      rewrite Heq in *.
    + exact (inv_open w HI i s0 Hs0 Hopen).
    + rewrite deliver_Error in Hopen. discriminate.
  - intros i s ref Hs Hsrc Hlive. unfold elapse in Hs. simpl in Hs.
    apply list_lookup_fmap_Some in Hs as (s0 & -> & Hs0).
    destruct (fire_cases (now w + Z.of_nat ms) s0)
      as [[Heq _]|(Hopen & _ & _ & Heq)]; rewrite Heq in *.
    + exact (inv_quiet w HI i s0 ref Hs0 Hsrc Hlive).
    + rewrite deliver_Error. simpl.
      destruct (inv_open w HI i s0 Hs0 Hopen) as [-> _]. by eauto.
  - intros i s ref Hs Hsrc. unfold elapse in Hs. simpl in Hs.
    apply list_lookup_fmap_Some in Hs as (s0 & -> & Hs0).
    apply (inv_source w HI i s0 ref Hs0).
    destruct (fire_cases (now w + Z.of_nat ms) s0) as [[Heq _]|(_ & _ & _ & Heq)];
      rewrite Heq in Hsrc; [done|by rewrite deliver_Error in Hsrc].
Qed.

Lemma forwarded_subscriber (ref : nat) (a : Action) (s : Subscriber) :
  let s' := if isObserver ref s then deliver (Next a) s else s in
  source s' = source s ∧ closed s' = closed s ∧ received s' = received s.
Proof.
  simpl. destruct (isObserver ref s) eqn:Hobs; [|done].
  destruct (isObserver_open _ _ Hobs) as [_ Hopen].
  by rewrite deliver_Next.
Qed.

Lemma Inv_forward (w : World) (f : WakeFn) (sd v : U) (ref : nat) (a : Action) :
  Inv w → suspendedOn w f sd ref →
  Inv (setModel (setSyncData (Some v) (model w)) (notify ref (Next a) w)).
Proof.
  intros HI (Hf & Hsd & Hev & Hlive). split.
  - intros f1 Hf1. exists v, ref. done.
  - exact (inv_live w HI).
  - intros i s' Hs' Hopen. simpl in Hs'.
    apply list_lookup_fmap_Some in Hs' as (s & -> & Hs).
    destruct (forwarded_subscriber ref a s) as (Hsrc & Hcl & Hrcv).
    rewrite Hcl in Hopen. rewrite Hsrc, Hrcv.
    exact (inv_open w HI i s Hs Hopen).
  - intros i s' r Hs' Hsrc' Hl. simpl in Hs'.
    apply list_lookup_fmap_Some in Hs' as (s & -> & Hs).
    destruct (forwarded_subscriber ref a s) as (Hsrc & Hcl & Hrcv).
    rewrite Hsrc in Hsrc'. rewrite Hrcv.
    exact (inv_quiet w HI i s r Hs Hsrc' Hl).
  - intros i s' r Hs' Hsrc'. simpl in Hs'.
    apply list_lookup_fmap_Some in Hs' as (s & -> & Hs).
    destruct (forwarded_subscriber ref a s) as (Hsrc & Hcl & Hrcv).
    rewrite Hsrc in Hsrc'. exact (inv_source w HI i s r Hs Hsrc').
Qed.

(** A world in which the suspension has just ended: the subject is stopped
    and every subscription is closed. *)
Lemma Inv_stopped (w w' : World) (ref : nat) (g : Subject → Subject) :
  Inv w → wakeEvents (model w) = Some ref →
  wakeFn (model w') = None →
  subjects w' = alter g ref (subjects w) →
  (∀ sj, isStopped (g sj) = true) →
  (∀ i s', subscribers w' !! i = Some s' →
     closed s' = true
     ∧ ∃ s, subscribers w !! i = Some s ∧ source s' = source s) →
  Inv w'.
Proof.
  intros HI Hev Hf' Hsj' Hg Hsubs.
  assert (Hdead : ∀ r, ¬ live w' r).
  { intros r (sj & Hl & Hlive). rewrite Hsj' in Hl.
    destruct (decide (ref = r)) as [->|Hne].
    - rewrite list_lookup_alter_eq in Hl.
      destruct (subjects w !! r) as [sj0|]; simplify_eq/=.
      rewrite Hg in Hlive. discriminate.
    - rewrite list_lookup_alter_ne in Hl by done.
      destruct (inv_live w HI r) as [Hr _]; [by exists sj|congruence]. }
  split.
  - intros f Hf. congruence.
  - intros r Hl. destruct (Hdead r Hl).
  - intros i s' Hs' Hopen. destruct (Hsubs i s' Hs') as [Hcl _]. congruence.
  - intros i s' r _ _ Hl. destruct (Hdead r Hl).
  - intros i s' r Hs' Hsrc'. destruct (Hsubs i s' Hs') as (_ & s & Hs & Hsrc).
    rewrite Hsj', length_alter. apply (inv_source w HI i s r Hs). congruence.
Qed.

Lemma closed_not_observer (ref : nat) (s : Subscriber) :
  closed s = true → isObserver ref s = false.
Proof. intros Hc. unfold isObserver. rewrite Hc. apply andb_false_r. Qed.

Lemma Inv_failed (w : World) (f : WakeFn) (sd : U) (ref : nat) (e : JsError) :
  Inv w → suspendedOn w f sd ref →
  Inv (Subject_error e ref (setModel (setWakeFn None (model w)) w)).
Proof.
  intros HI Hsusp. pose proof Hsusp as (_ & _ & Hev & _).
  eapply (Inv_stopped w _ ref); [done|done|reflexivity|reflexivity|done|].
  intros i s' Hs'. unfold Subject_error, notify in Hs'. simpl in Hs'.
  apply list_lookup_fmap_Some in Hs' as (s & -> & Hs).
  destruct (closed s) eqn:Hc.
  - rewrite closed_not_observer by done. eauto.
  - rewrite (open_is_observer w f sd ref i s) by done.
    rewrite deliver_Error. simpl. eauto.
Qed.

Lemma Inv_woken (w : World) (f : WakeFn) (sd : U) (ref : nat) (a : Action) :
  Inv w → suspendedOn w f sd ref →
  Inv (Subject_complete ref
         (notify ref (Next a) (setModel (setWakeFn None (model w)) w))).
Proof.
  intros HI Hsusp. pose proof Hsusp as (_ & _ & Hev & _).
  eapply (Inv_stopped w _ ref); [done|done|reflexivity|reflexivity|done|].
  intros i s' Hs'. unfold Subject_complete, notify in Hs'. simpl in Hs'.
  rewrite <- list_fmap_compose in Hs'.
  apply list_lookup_fmap_Some in Hs' as (s & -> & Hs). simpl.
  destruct (closed s) eqn:Hc.
  - rewrite (closed_not_observer ref s) by done.
    rewrite (closed_not_observer ref s) by done. eauto.
  - pose proof (open_is_observer w f sd ref i s HI Hsusp Hs Hc) as Hobs.
    rewrite Hobs, isObserver_deliver_Next by done.
    rewrite deliver_Complete, deliver_Next by done. simpl. eauto.
Qed.

Lemma Inv_wakeUp (a : Action) (w : World) : Inv w → Inv (snd (wakeUp a w)).
Proof.
  intros HI. destruct (wakeFn (model w)) as [f|] eqn:Hf.
  2: { by rewrite wakeUp_inactive. }
  destruct (inv_suspended w HI f Hf) as (sd & ref & Hsusp).
  pose proof Hsusp as (_ & Hsd & Hev & _).
  destruct (f a sd) as [[v|]|e] eqn:Hans.
  - destruct (decide (v = sd)) as [->|Hne].
    + by rewrite (wakeUp_same a w f sd).
    + rewrite (wakeUp_forward a w f sd v ref) by done. by eapply Inv_forward.
  - destruct (error a) as [e|] eqn:Herr.
    + rewrite (wakeUp_wake_error a w f sd ref e) by done. by eapply Inv_failed.
    + rewrite (wakeUp_wake a w f sd ref) by done. by eapply Inv_woken.
  - rewrite (wakeUp_throw a w f sd ref e) by done. by eapply Inv_failed.
Qed.

Lemma Inv_reachable (initialState : T) (w : World) :
  reachable initialState w → Inv w.
Proof.
  induction 1 as [|w ev _ IH Hen]; [apply Inv_new|].
  destruct ev as [ms sd f|o|a|ms]; simpl.
  - by apply Inv_suspend.
  - by apply Inv_subscribe.
  - by apply Inv_wakeUp.
  - by apply Inv_elapse.
Qed.

(** The timer of [suspendWithTimeout] touches subscribers only. *)
Lemma elapse_model (ms : nat) (w : World) : model (elapse ms w) = model w.
Proof. reflexivity. Qed.

(** Wherever a run leads, a model that has a wake predicate also has a
    synchronisation value and a live subject. *)
Lemma reachable_suspendedOn (initialState : T) (w : World) (f : WakeFn) :
  reachable initialState w → wakeFn (model w) = Some f →
  ∃ sd ref, suspendedOn w f sd ref.
Proof. intros HI%Inv_reachable. exact (inv_suspended w HI f). Qed.

Lemma suspend_subscribers (ms : Z) (sd : U) (f : WakeFn) (w : World) :
  subscribers (snd (suspendWithTimeout ms sd f w)) = subscribers w.
Proof.
  destruct (wakeFn (model w)) as [f0|] eqn:Hf.
  - run_eff. by rewrite Hf.
  - destruct (suspend_active ms sd f w Hf) as (w' & -> & _ & _ & _ & _ & Hs).
    exact Hs.
Qed.

Lemma action_fate (w : World) (a : Action) (i : nat) (s : Subscriber) :
  Inv w → subscribers w !! i = Some s →
  ∃ s', subscribers (snd (wakeUp a w)) !! i = Some s' ∧ Fate w s (EvAction a) s'.
Proof.
  intros HI Hs. destruct (closed s) eqn:Hc.
  - (* a closed subscription is no observer of any subject *)
    exists s. split; [|by constructor].
    destruct (wakeFn (model w)) as [f|] eqn:Hf.
    2: { by rewrite wakeUp_inactive. }
    destruct (inv_suspended w HI f Hf) as (sd & ref & Hsusp).
    pose proof Hsusp as (_ & Hsd & Hev & _).
    destruct (f a sd) as [[v|]|e] eqn:Hans.
    + destruct (decide (v = sd)) as [->|Hne].
      * by rewrite (wakeUp_same a w f sd).
      * rewrite (wakeUp_forward a w f sd v ref) by done. simpl.
        rewrite list_lookup_fmap, Hs. simpl.
        by rewrite (closed_not_observer ref s).
    + destruct (error a) as [e|] eqn:Herr.
      * rewrite (wakeUp_wake_error a w f sd ref e) by done.
        unfold Subject_error, notify. simpl.
        rewrite list_lookup_fmap, Hs. simpl.
        by rewrite (closed_not_observer ref s).
      * rewrite (wakeUp_wake a w f sd ref) by done.
        unfold Subject_complete, notify. simpl.
        rewrite !list_lookup_fmap, Hs. simpl.
        rewrite (closed_not_observer ref s) by done. simpl.
        by rewrite (closed_not_observer ref s).
    + rewrite (wakeUp_throw a w f sd ref e) by done.
      unfold Subject_error, notify. simpl.
      rewrite list_lookup_fmap, Hs. simpl.
      by rewrite (closed_not_observer ref s).
  - destruct (open_needs_suspension w i s HI Hs Hc) as (f & sd & ref & Hsusp).
    pose proof Hsusp as (Hf & Hsd & Hev & _).
    pose proof (open_is_observer w f sd ref i s HI Hsusp Hs Hc) as Hobs.
    destruct (inv_open w HI i s Hs Hc) as [Hrcv _].
    destruct (f a sd) as [[v|]|e] eqn:Hans.
    + destruct (decide (v = sd)) as [->|Hne].
      * rewrite (wakeUp_same a w f sd) by done. exists s.
        split; [done|by eapply fate_swallowed].
      * rewrite (wakeUp_forward a w f sd v ref) by done. simpl.
        rewrite list_lookup_fmap, Hs. simpl. rewrite Hobs.
        eexists. split; [done|]. rewrite deliver_Next, Hrcv by done.
        by eapply fate_buffered.
    + destruct (error a) as [e|] eqn:Herr.
      * rewrite (wakeUp_wake_error a w f sd ref e) by done.
        unfold Subject_error, notify. simpl.
        rewrite list_lookup_fmap, Hs. simpl. rewrite Hobs.
        eexists. split; [done|]. rewrite deliver_Error, Hrcv.
        by eapply fate_error_action.
      * rewrite (wakeUp_wake a w f sd ref) by done.
        unfold Subject_complete, notify. simpl.
        rewrite !list_lookup_fmap, Hs. simpl.
        rewrite Hobs, isObserver_deliver_Next by done.
        eexists. split; [done|].
        rewrite deliver_Complete, deliver_Next by done. simpl. rewrite Hrcv.
        by eapply fate_delivered.
    + rewrite (wakeUp_throw a w f sd ref e) by done.
      unfold Subject_error, notify. simpl.
      rewrite list_lookup_fmap, Hs. simpl. rewrite Hobs.
      eexists. split; [done|]. rewrite deliver_Error, Hrcv.
      by eapply fate_predicate_error.
Qed.

(** *** More on the handler registry *)

Local Abbreviation IReducer := (@Model.IReducer T Payload) (only parsing).
Local Abbreviation SEDispatcher := (@Model.SEDispatcher Payload) (only parsing).

Ltac run_handlers :=
  unfold replaceActionHandler, addActionHandler, addActionSubtypeHandler,
    extendActionHandler, reduceAlsoOn, sideEffectAlsoOn, installReducer,
    installSideEffect, bind, get, modify, ret, throw; simpl.



(** X3: registering handlers for an action name that has none succeeds;
    from then on [reduce] applies the reducer and [sideEffects] runs the
    producer for actions of that name, while actions of every other name
    are treated as before. *)
Theorem addActionHandler_registers (m : StatelessModel) (actionName : string)
    (r : INewStateReducer) (se : ISideEffectHandler) :
  actionMatch m !! actionName = None →
  sideEffectMatch m !! actionName = None →
  ∃ m', addActionHandler actionName (Some r) (Some se) m
          = (Normal (createHandlerModifier actionName), m')
    ∧ (∀ st a, name a = actionName →
         reduce m' st a = r st a
         ∧ ∀ (d : SEDispatcher) q, sideEffects m' st a d q = se st a d q)
    ∧ (∀ st a, name a ≠ actionName →
         reduce m' st a = reduce m st a
         ∧ ∀ (d : SEDispatcher) q, sideEffects m' st a d q = sideEffects m st a d q).
Proof.
  intros Hr Hse. run_handlers. rewrite Hr. simpl. rewrite Hse.
  eexists. split; [reflexivity|]. unfold reduce, sideEffects. simpl.
  split; intros st a Ha.
  - rewrite Ha, !lookup_insert_eq. done.
  - rewrite !lookup_insert_ne by done. done.
Qed.

(** X4: a subtype handler filters by its predicate. For an action of the
    registered name the reducer and the side-effect producer run when the
    predicate accepts the action; otherwise the state is returned as it is
    and nothing is dispatched. *)
Theorem subtype_handler_filters (m : StatelessModel) (actionName : string)
    (matches : Action → bool) (r : INewStateReducer) (se : ISideEffectHandler) :
  actionMatch m !! actionName = None →
  sideEffectMatch m !! actionName = None →
  ∃ m', addActionSubtypeHandler actionName matches (Some r) (Some se) m
          = (Normal (createHandlerModifier actionName), m')
    ∧ ∀ st a, name a = actionName →
        (matches a = true →
           reduce m' st a = r st a
           ∧ ∀ (d : SEDispatcher) q, sideEffects m' st a d q = se st a d q)
        ∧ (matches a = false →
           reduce m' st a = st
           ∧ ∀ (d : SEDispatcher) q, sideEffects m' st a d q = (Normal tt, q)).
Proof.
  intros Hr Hse. run_handlers. rewrite Hr. simpl. rewrite Hse.
  eexists. split; [reflexivity|]. unfold reduce, sideEffects. simpl.
  intros st a Ha. rewrite Ha, !lookup_insert_eq.
  split; intros ->; done.
Qed.

(** X5: one model holds one subtype handler per action name: once a
    subtype reducer is registered, a second one for the same name is
    rejected whatever its predicate, as is a plain reducer, and the
    registry keeps the first. *)
Theorem second_subtype_handler_rejected (m : StatelessModel) (actionName : string)
    (matches matches' : Action → bool) (r r' : INewStateReducer)
    (se' : option ISideEffectHandler) :
  actionMatch m !! actionName = None →
  ∃ m1, addActionSubtypeHandler actionName matches (Some r) None m
          = (Normal (createHandlerModifier actionName), m1)
    ∧ addActionSubtypeHandler actionName matches' (Some r') se' m1
        = (Throw (reducerDefined actionName), m1)
    ∧ addActionHandler actionName (Some r') se' m1
        = (Throw (reducerDefined actionName), m1).
Proof.
  intros Hr. run_handlers. rewrite Hr. simpl.
  eexists. split; [reflexivity|]. simpl. rewrite !lookup_insert_eq. done.
Qed.





(** X10: an alias is a copy, not a link. For action names that are not
    members of [Object.prototype]: after [reduceAlsoOn] has given a second
    name the reducer of the first, replacing the handler of the first name
    changes the first name only, and the alias keeps the old reducer. *)
Theorem alias_outlives_replacement (m : StatelessModel) (actionName alias : string)
    (r : IReducer) (r' : INewStateReducer) :
  alias ≠ actionName →
  objectPrototype !! actionName = None →
  objectPrototype !! alias = None →
  actionMatch m !! actionName = Some r →
  ∃ m1 m2,
    reduceAlsoOn (createHandlerModifier actionName) [alias] m
      = (Normal (createHandlerModifier actionName), m1)
    ∧ replaceActionHandler actionName (Some r') None m1
      = (Normal (createHandlerModifier actionName), m2)
    ∧ (∀ st a, name a = actionName → reduce m2 st a = r' st a)
    ∧ (∀ st a, name a = alias → reduce m2 st a = r st a).
Proof.
  intros Hne Hown _ Hr.
  assert (Hd : ∀ obj, deleteProperty inheritedReducers actionName obj
                        !! actionName = None).
  { intros obj. rewrite deleteProperty_lookup, decide_True by done.
    by rewrite inheritedReducers_lookup, Hown. }
  run_handlers. rewrite Hr. simpl.
  eexists _, _. split; [reflexivity|]. rewrite Hd. simpl.
  split; [reflexivity|]. unfold reduce. simpl.
  split; intros st a ->.
  - by rewrite lookup_insert_eq.
  - rewrite lookup_insert_ne, deleteProperty_lookup, decide_False by done.
    by rewrite lookup_insert_eq.
Qed.

(** *** More on suspensions *)

Lemma run_app (evs evs' : list Event) (w : World) :
  run (evs ++ evs') w = run evs' (run evs w).
Proof. unfold run. apply foldl_app. Qed.

(** X11: suspending, subscribing, waking up and the passing of time leave
    the committed state of the model and both handler registries exactly
    as they were, over any run. *)
Theorem suspension_never_touches_state (evs : list Event) (w : World) :
  getState (model (run evs w)) = getState (model w)
  ∧ actionMatch (model (run evs w)) = actionMatch (model w)
  ∧ sideEffectMatch (model (run evs w)) = sideEffectMatch (model w).
Proof.
  revert w. induction evs as [|ev evs IH]; intros w; [done|].
  change (run (ev :: evs) w) with (run evs (step ev w)).
  destruct (IH (step ev w)) as (-> & -> & ->).
  destruct ev as [ms sd f|o|a|ms]; simpl; [| by repeat split | | by repeat split].
  - run_eff. destruct (wakeFn (model w)); simpl; by repeat split.
  - run_eff. unfold Subject_next.
    repeat (case_match; simpl; simplify_eq/=); by repeat split.
Qed.

Lemma elapse_run_keeps (waits : list nat) (w : World) (i : nat) (s : Subscriber) :
  subscribers w !! i = Some s → (timeout s ≤ 0)%Z →
  subscribers (run (EvElapse <$> waits) w) !! i = Some s
  ∧ model (run (EvElapse <$> waits) w) = model w.
Proof.
  revert w. induction waits as [|ms waits IH]; intros w Hs Hms; [done|].
  change (run (EvElapse <$> ms :: waits) w)
    with (run (EvElapse <$> waits) (elapse ms w)).
  assert (Hkeep : subscribers (elapse ms w) !! i = Some s).
  { unfold elapse. simpl. rewrite list_lookup_fmap, Hs. simpl.
    f_equal. unfold fire. destruct (closed s); [done|].
    rewrite bool_decide_eq_false_2 by lia. done. }
  destruct (IH (elapse ms w) Hkeep Hms) as [-> ->]. done.
Qed.

(** X12: without a positive timeout there is no timer. A model suspended
    through [suspend], or through [suspendWithTimeout] with a timeout that
    is not positive, stays suspended however much time passes, and its
    subscriber stays open and receives nothing. *)
Theorem suspension_without_timeout_waits (w : World) (ms : Z) (sd : U)
    (f : WakeFn) (waits : list nat) :
  wakeFn (model w) = None → (ms ≤ 0)%Z →
  ∃ o w1, suspendWithTimeout ms sd f w = (Normal o, w1)
    ∧ (ms = 0%Z → suspend sd f w = (Normal o, w1))
    ∧ let w2 := run (EvElapse <$> waits) (subscribe o w1) in
      isActive (model w2) = false
      ∧ ∃ s, subscribers w2 !! length (subscribers w) = Some s
             ∧ closed s = false ∧ received s = [] ∧ acc s = [].
Proof.
  intros Hf Hms.
  destruct (suspend_active ms sd f w Hf) as (w1 & Hsus & Hf1 & _ & _ & Hsj & Hsubs).
  exists (WakeEvents (length (subjects w)) ms), w1.
  split; [exact Hsus|]. split; [by intros ->|]. simpl.
  assert (Hnew : subscribers (subscribe (WakeEvents (length (subjects w)) ms) w1)
                   !! length (subscribers w)
                 = Some (freshSubscriber (Some (length (subjects w))) ms (now w1))).
  { unfold subscribe, newSubscriber. simpl.
    rewrite Hsubs, Hsj, list_lookup_middle by done.
    rewrite list_lookup_middle by done. reflexivity. }
  destruct (elapse_run_keeps waits _ _ _ Hnew Hms) as [Hkeep Hmodel].
  split.
  - rewrite Hmodel. unfold isActive, subscribe. simpl. by rewrite Hf1.
  - eexists. split; [exact Hkeep|]. done.
Qed.

Lemma run_actions_inactive (actions : list Action) (w : World) :
  wakeFn (model w) = None → run (EvAction <$> actions) w = w.
Proof.
  intros Hf. induction actions as [|a rest IH]; [done|].
  change (run (EvAction <$> a :: rest) w)
    with (run (EvAction <$> rest) (snd (wakeUp a w))).
  by rewrite wakeUp_inactive.
Qed.

Lemma buffering_open (s : Subscriber) :
  closed s = false → received s = [] → buffering (acc s) s = s.
Proof. destruct s. simpl. by intros -> ->. Qed.

(** One action handed to a suspended model, seen from an open
    subscription. *)
Lemma wakeUp_open_subscriber (w : World) (f : WakeFn) (sd : U) (ref : nat)
    (a : Action) (i : nat) (s : Subscriber) :
  Inv w → suspendedOn w f sd ref →
  subscribers w !! i = Some s → closed s = false →
  let w' := snd (wakeUp a w) in
  match f a sd with
  | Normal (Some v) =>
      if decide (v = sd) then w' = w
      else suspendedOn w' f v ref
           ∧ subscribers w' !! i = Some (buffering (acc s ++ [a]) s)
  | Normal None =>
      isActive (model w') = true
      ∧ subscribers w' !! i
        = Some match error a with
               | Some e => closedWith (acc s) [Error e] s
               | None =>
                   closedWith (acc s ++ [a])
                     ((Next <$> acc s ++ [a]) ++ [Complete]) s
               end
  | Throw e =>
      isActive (model w') = true
      ∧ subscribers w' !! i = Some (closedWith (acc s) [Error e] s)
  end.
Proof.
  intros HI Hsusp Hs Hc. simpl.
  pose proof Hsusp as (Hf & Hsd & Hev & Hlive).
  pose proof (open_is_observer w f sd ref i s HI Hsusp Hs Hc) as Hobs.
  destruct (inv_open w HI i s Hs Hc) as [Hrcv _].
  destruct (f a sd) as [[v|]|e] eqn:Hans.
  - destruct (decide (v = sd)) as [->|Hne].
    + by rewrite (wakeUp_same a w f sd).
    + rewrite (wakeUp_forward a w f sd v ref) by done. simpl.
      split; [done|].
      rewrite list_lookup_fmap, Hs. simpl. rewrite Hobs.
      by rewrite deliver_Next, Hrcv.
  - destruct (error a) as [e|] eqn:Herr.
    + rewrite (wakeUp_wake_error a w f sd ref e) by done.
      split; [done|]. unfold Subject_error, notify. simpl.
      rewrite list_lookup_fmap, Hs. simpl. rewrite Hobs.
      by rewrite deliver_Error, Hrcv.
    + rewrite (wakeUp_wake a w f sd ref) by done.
      split; [done|]. unfold Subject_complete, notify. simpl.
      rewrite !list_lookup_fmap, Hs. simpl.
      rewrite Hobs, isObserver_deliver_Next by done.
      rewrite deliver_Complete, deliver_Next by done. simpl. by rewrite Hrcv.
  - rewrite (wakeUp_throw a w f sd ref e) by done.
    split; [done|]. unfold Subject_error, notify. simpl.
    rewrite list_lookup_fmap, Hs. simpl. rewrite Hobs.
    by rewrite deliver_Error, Hrcv.
Qed.

Lemma episode_run (actions : list Action) (w : World) (f : WakeFn) (sd : U)
    (ref : nat) (i : nat) (s : Subscriber) :
  Inv w → suspendedOn w f sd ref →
  subscribers w !! i = Some s → closed s = false →
  ∃ s', subscribers (run (EvAction <$> actions) w) !! i = Some s'
    ∧ match episode f sd (acc s) actions with
      | StillSuspended buffer sd' =>
          suspendedOn (run (EvAction <$> actions) w) f sd' ref
          ∧ s' = buffering buffer s
      | WokenUp delivered =>
          isActive (model (run (EvAction <$> actions) w)) = true
          ∧ closed s' = true
          ∧ received s' = (Next <$> delivered) ++ [Complete]
      | Broken e =>
          isActive (model (run (EvAction <$> actions) w)) = true
          ∧ closed s' = true
          ∧ received s' = [Error e]
      end.
Proof.
  revert w sd s. induction actions as [|a rest IH]; intros w sd s HI Hsusp Hs Hc.
  { exists s. split; [done|]. simpl. split; [done|].
    destruct (inv_open w HI i s Hs Hc) as [Hrcv _].
    by rewrite buffering_open. }
  change (run (EvAction <$> a :: rest) w)
    with (run (EvAction <$> rest) (snd (wakeUp a w))).
  pose proof (wakeUp_open_subscriber w f sd ref a i s HI Hsusp Hs Hc) as Hstep.
  pose proof (Inv_wakeUp a w HI) as HI'.
  simpl in Hstep. simpl episode. destruct (f a sd) as [[v|]|e].
  - destruct (decide (v = sd)) as [->|Hne].
    + rewrite Hstep. by apply IH.
    + destruct Hstep as [Hsusp' Hs'].
      destruct (IH _ v _ HI' Hsusp' Hs' eq_refl) as (s' & Hlook & Hres).
      exists s'. split; [done|]. exact Hres.
  - destruct Hstep as [Hact Hs'].
    rewrite run_actions_inactive
      by (unfold isActive in Hact; by destruct (wakeFn (model (snd (wakeUp a w))))).
    eexists. split; [exact Hs'|]. by destruct (error a).
  - destruct Hstep as [Hact Hs'].
    rewrite run_actions_inactive
      by (unfold isActive in Hact; by destruct (wakeFn (model (snd (wakeUp a w))))).
    eexists. split; [exact Hs'|]. done.
Qed.

(** X13: the stream machinery does what the docstring of
    [suspendWithTimeout] says. For a subscription that is open while the
    model is suspended, any sequence of further actions leaves it as
    [episode] tells from the answers of the wake predicate alone: still
    buffering under the latest synchronisation value, or completed with
    exactly the forwarded actions and the waking one in arrival order, or
    failed with the error alone; actions after the wake-up do not reach
    it. *)
Theorem suspension_follows_wake_predicate (initialState : T) (w : World)
    (f : WakeFn) (sd : U) (ref : nat) (i : nat) (s : Subscriber)
    (actions : list Action) :
  reachable initialState w → suspendedOn w f sd ref →
  subscribers w !! i = Some s → closed s = false →
  ∃ s', subscribers (run (EvAction <$> actions) w) !! i = Some s'
    ∧ match episode f sd (acc s) actions with
      | StillSuspended buffer sd' =>
          suspendedOn (run (EvAction <$> actions) w) f sd' ref
          ∧ s' = buffering buffer s
      | WokenUp delivered =>
          isActive (model (run (EvAction <$> actions) w)) = true
          ∧ closed s' = true
          ∧ received s' = (Next <$> delivered) ++ [Complete]
      | Broken e =>
          isActive (model (run (EvAction <$> actions) w)) = true
          ∧ closed s' = true
          ∧ received s' = [Error e]
      end.
Proof. intros HI%Inv_reachable. by apply episode_run. Qed.

(** X14: in every state a run can reach, the model is active exactly when
    no subject is live; at most one subject is live, the one of the running
    suspension; and once the model is active every subscription is
    closed. *)
Theorem active_means_all_streams_ended (initialState : T) (w : World) :
  reachable initialState w →
  (isActive (model w) = true ↔ ∀ ref, ¬ live w ref)
  ∧ (∀ ref ref', live w ref → live w ref' → ref = ref')
  ∧ (isActive (model w) = true →
       ∀ i s, subscribers w !! i = Some s → closed s = true).
Proof.
  intros HI%Inv_reachable. split; [split|split].
  - intros Hact ref Hlive. destruct (inv_live w HI ref Hlive) as [_ [f Hf]].
    unfold isActive in Hact. by rewrite Hf in Hact.
  - intros Hdead. unfold isActive.
    destruct (wakeFn (model w)) as [f|] eqn:Hf; [|done].
    destruct (inv_suspended w HI f Hf) as (sd & ref & _ & _ & _ & Hlive).
    destruct (Hdead ref Hlive).
  - intros ref ref' [Hr _]%(inv_live w HI) [Hr' _]%(inv_live w HI). congruence.
  - intros Hact i s Hs. destruct (closed s) eqn:Hc; [done|].
    destruct (inv_open w HI i s Hs Hc) as (_ & ref & _ & Hlive).
    destruct (inv_live w HI ref Hlive) as [_ [f Hf]].
    unfold isActive in Hact. by rewrite Hf in Hact.
Qed.

Lemma step_fate (w : World) (ev : Event) (i : nat) (s : Subscriber) :
  Inv w → subscribers w !! i = Some s →
  ∃ s', subscribers (step ev w) !! i = Some s' ∧ Fate w s ev s'.
Proof.
  intros HI Hs. destruct ev as [ms sd f|o|a|ms]; simpl.
  - exists s. rewrite suspend_subscribers. split; [done|apply fate_suspend].
  - exists s. split; [|apply fate_subscribe].
    unfold subscribe. simpl.
    rewrite lookup_app_l; [done|by eapply lookup_lt_Some].
  - by apply action_fate.
  - unfold elapse. simpl. rewrite list_lookup_fmap, Hs. simpl.
    eexists. split; [done|].
    destruct (fire_cases (now w + Z.of_nat ms) s)
      as [[-> [Hc|Hnot]]|(Hopen & Hpos & Hdue & ->)].
    + by constructor.
    + destruct (closed s) eqn:Hc; [by constructor|by apply fate_waiting].
    + rewrite deliver_Error.
      destruct (inv_open w HI i s Hs Hopen) as [-> _].
      by apply fate_timeout.
Qed.

Lemma Fate_shape (w : World) (ev : Event) (s s' : Subscriber) :
  Fate w s ev s' → streamShape s → streamShape s'.
Proof.
  intros HF Hshape. unfold streamShape.
  inversion HF; subst; simpl; eauto 6.
Qed.

Lemma newSubscriber_shape (o : Observable) (w : World) :
  streamShape (newSubscriber o w).
Proof.
  unfold streamShape. destruct o as [e|ref ms]; unfold newSubscriber.
  { rewrite deliver_Error. simpl. eauto. }
  destruct (subjects w !! ref) as [sj|]; [|by left].
  destruct (thrownError sj) as [e|].
  { rewrite deliver_Error. simpl. eauto. }
  destruct (isStopped sj); [|by left].
  rewrite deliver_Complete. simpl. right. right. split; [done|]. by exists [].
Qed.

(** X15: whatever happens, a subscriber sees a well-formed stream: nothing
    at all while its subscription is open, and for a closed one either a
    single error or a run of actions ended by the completion. No action
    ever follows an error or a completion, and no error comes with
    actions. *)
Theorem subscribers_see_well_formed_streams (initialState : T) (w : World)
    (i : nat) (s : Subscriber) :
  reachable initialState w → subscribers w !! i = Some s → streamShape s.
Proof.
  intros Hreach. revert i s.
  induction Hreach as [|w ev Hreach IH Hen]; intros i s' Hs'.
  { by destruct i. }
  pose proof (Inv_reachable _ _ Hreach) as HI.
  destruct (subscribers w !! i) as [s|] eqn:Hs.
  - destruct (step_fate w ev i s HI Hs) as (s'' & Hs'' & HF).
    assert (s'' = s') as -> by congruence.
    eapply Fate_shape; [exact HF|]. by eapply IH.
  - apply lookup_ge_None in Hs.
    destruct ev as [ms sd f|o|a|ms]; simpl in Hs'.
    + rewrite suspend_subscribers in Hs'. apply lookup_lt_Some in Hs'. lia.
    + unfold subscribe in Hs'. simpl in Hs'.
      apply lookup_snoc_Some in Hs' as [[Hlt _]|[_ <-]]; [lia|].
      apply newSubscriber_shape.
    + exfalso. apply lookup_lt_Some in Hs'.
      destruct (wakeFn (model w)) as [f|] eqn:Hf.
      2: { rewrite wakeUp_inactive in Hs' by done. simpl in Hs'. lia. }
      destruct (inv_suspended w HI f Hf) as (sd & ref & Hsusp).
      pose proof Hsusp as (_ & Hsd & Hev & _).
      destruct (f a sd) as [[v|]|e] eqn:Hans.
      * destruct (decide (v = sd)) as [->|Hne].
        -- rewrite (wakeUp_same a w f sd) in Hs' by done. simpl in Hs'. lia.
        -- rewrite (wakeUp_forward a w f sd v ref) in Hs' by done.
           simpl in Hs'. rewrite length_fmap in Hs'. lia.
      * destruct (error a) as [e|] eqn:Herr.
        -- rewrite (wakeUp_wake_error a w f sd ref e) in Hs' by done.
           unfold Subject_error, notify in Hs'. simpl in Hs'.
           rewrite length_fmap in Hs'. lia.
        -- rewrite (wakeUp_wake a w f sd ref) in Hs' by done.
           unfold Subject_complete, notify in Hs'. simpl in Hs'.
           rewrite !length_fmap in Hs'. lia.
      * rewrite (wakeUp_throw a w f sd ref e) in Hs' by done.
        unfold Subject_error, notify in Hs'. simpl in Hs'.
        rewrite length_fmap in Hs'. lia.
    + unfold elapse in Hs'. simpl in Hs'. apply lookup_lt_Some in Hs'.
      rewrite length_fmap in Hs'. lia.
Qed.

(** *** Subscriptions over the rest of a run *)

Lemma Inv_step (ev : Event) (w : World) :
  Inv w → enabled w ev → Inv (step ev w).
Proof.
  intros HI Hen. destruct ev as [ms sd f|o|a|ms]; simpl.
  - by apply Inv_suspend.
  - by apply Inv_subscribe.
  - by apply Inv_wakeUp.
  - by apply Inv_elapse.
Qed.

Lemma Inv_reaches (w w' : World) : Inv w → reaches w w' → Inv w'.
Proof. intros HI. induction 1; [done|]. by apply Inv_step. Qed.

Lemma reachable_reaches (initialState : T) (w w' : World) :
  reachable initialState w → reaches w w' → reachable initialState w'.
Proof. intros Hreach. induction 1; [done|]. by apply reach_step. Qed.

Lemma Fate_closed (w : World) (ev : Event) (s s' : Subscriber) :
  Fate w s ev s' → closed s = true → s' = s.
Proof. intros HF Hc. inversion HF; subst; congruence. Qed.

Lemma Fate_carries (w : World) (ev : Event) (s s' : Subscriber)
    (buffer : list Action) :
  Fate w s ev s' → carries buffer s → carries buffer s'.
Proof.
  intros HF [(Hc & Hr & more & Hacc)|Hended].
  - inversion HF; subst; try congruence;
      try (left; split; [done|]; split; [done|]; by exists more).
    + left. split; [done|]. split; [done|]. exists (more ++ [a]). simpl.
      by rewrite Hacc, app_assoc.
    + right. right. split; [done|]. exists (more ++ [a]). simpl.
      by rewrite Hacc, app_assoc.
    + right. left. split; [done|]. by exists e.
    + right. left. split; [done|]. by exists e.
    + right. left. split; [done|]. by eexists.
  - assert (closed s = true) as Hc by (by destruct Hended as [[? _]|[? _]]).
    rewrite (Fate_closed w ev s s' HF Hc). by right.
Qed.

(** An open subscription keeps what it has buffered until its stream
    ends; a closed one never changes. *)
Lemma reaches_carries (w w' : World) (i : nat) (s : Subscriber) :
  Inv w → subscribers w !! i = Some s → reaches w w' →
  ∃ s', subscribers w' !! i = Some s'
    ∧ (closed s = true → s' = s)
    ∧ (closed s = false → carries (acc s) s').
Proof.
  intros HI Hs Hreach. induction Hreach as [|w' ev Hreach IH Hen].
  { exists s. split; [done|]. split; [done|]. intros Hc. left.
    destruct (inv_open w HI i s Hs Hc) as [Hr _].
    split; [done|]. split; [done|]. exists []. by rewrite app_nil_r. }
  destruct IH as (s1 & Hs1 & Hkeep & Hcarry).
  pose proof (Inv_reaches w w' HI Hreach) as HI'.
  destruct (step_fate w' ev i s1 HI' Hs1) as (s2 & Hs2 & HF).
  exists s2. split; [done|]. split.
  - intros Hc. rewrite <- (Hkeep Hc). apply (Fate_closed w' ev s1 s2 HF).
    by rewrite (Hkeep Hc).
  - intros Hc. apply (Fate_carries w' ev s1 s2 _ HF). by apply Hcarry.
Qed.

(** A subject that has failed is stopped. *)
Lemma live_no_error (initialState : T) (w : World) (ref : nat) (sj : Subject) :
  reachable initialState w →
  subjects w !! ref = Some sj → isStopped sj = false → thrownError sj = None.
Proof.
  intros Hreach. revert ref sj.
  induction Hreach as [|w ev Hreach IH Hen]; intros r sj Hsj Hstop.
  { by destruct r. }
  pose proof (Inv_reachable _ _ Hreach) as HI.
  assert (∀ (g : Subject → Subject) ref0,
            (∀ sj0, isStopped (g sj0) = true) →
            alter g ref0 (subjects w) !! r = Some sj →
            thrownError sj = None) as Halter.
  { intros g ref0 Hg Hlook.
    destruct (decide (r = ref0)) as [Heq|Hne].
    - rewrite Heq, list_lookup_alter_eq in Hlook.
      destruct (subjects w !! ref0) as [sj0|]; [|done].
      simpl in Hlook. injection Hlook as <-. by rewrite Hg in Hstop.
    - rewrite list_lookup_alter_ne in Hlook by done. by eapply IH. }
  destruct ev as [ms sd f|o|a|ms]; simpl in Hsj.
  - destruct (wakeFn (model w)) as [f0|] eqn:Hf.
    + revert Hsj. run_eff. rewrite Hf. intros Hsj. by eapply IH.
    + destruct (suspend_active ms sd f w Hf) as (w' & Hw' & _ & _ & _ & Hsjs & _).
      rewrite Hw' in Hsj. simpl in Hsj. rewrite Hsjs in Hsj.
      apply lookup_snoc_Some in Hsj as [[_ Hsj]|[_ <-]]; [by eapply IH|done].
  - by eapply IH.
  - destruct (wakeFn (model w)) as [f|] eqn:Hf.
    2: { rewrite wakeUp_inactive in Hsj by done. by eapply IH. }
    destruct (inv_suspended w HI f Hf) as (sd & ref & Hsusp).
    pose proof Hsusp as (_ & Hsd & Hev & _).
    destruct (f a sd) as [[v|]|e] eqn:Hans.
    + destruct (decide (v = sd)) as [->|Hne].
      * rewrite (wakeUp_same a w f sd) in Hsj by done. by eapply IH.
      * rewrite (wakeUp_forward a w f sd v ref) in Hsj by done. by eapply IH.
    + destruct (error a) as [e|] eqn:Herr.
      * rewrite (wakeUp_wake_error a w f sd ref e) in Hsj by done.
        simpl in Hsj. eapply Halter; [|exact Hsj]. done.
      * rewrite (wakeUp_wake a w f sd ref) in Hsj by done.
        simpl in Hsj. eapply Halter; [|exact Hsj]. done.
    + rewrite (wakeUp_throw a w f sd ref e) in Hsj by done.
      simpl in Hsj. eapply Halter; [|exact Hsj]. done.
  - by eapply IH.
Qed.

(** C5, amended to what the code does. When the wake predicate answers
    with a new value [v] that is not [null], the model stays suspended and
    [v] becomes its synchronisation value. The action is pushed once into
    the subject and is not emitted at that point: every open subscription
    appends it once to its buffer and receives nothing, and no other
    subscription changes. From then on, wherever the run leads, such a
    subscription either still holds the action in its buffer, right after
    what it had buffered before, or has ended with an error and never
    received the action, or has completed and received the action exactly
    at that place of the delivered sequence. And it does receive it: when
    the model is woken up, while the subscription is open, by an action
    that carries no error, the subscription gets its old buffer, the
    action, what was forwarded later and the waking action, then the
    completion. *)
Theorem new_answer_buffers_then_delivers (w : World) (f : WakeFn) (sd v : U)
    (ref : nat) (A : Action) :
  suspendedOn w f sd ref → f A sd = Normal (Some v) → v ≠ sd →
  ∃ w', wakeUp A w = (Normal tt, w')
    ∧ isActive (model w') = false
    ∧ syncData (model w') = Some v
    ∧ getState (model w') = getState (model w)
    ∧ (∀ i s, subscribers w !! i = Some s →
         ∃ s', subscribers w' !! i = Some s'
           ∧ received s' = received s
           ∧ closed s' = closed s
           ∧ acc s' = if isObserver ref s then acc s ++ [A] else acc s)
    ∧ ∀ initialState, reachable initialState w →
        ∀ i s, subscribers w !! i = Some s → closed s = false →
          subscribers w' !! i = Some (buffering (acc s ++ [A]) s)
          ∧ ∀ w2, reaches w' w2 →
              ∃ s2, subscribers w2 !! i = Some s2
                ∧ carries (acc s ++ [A]) s2
                ∧ (closed s2 = false →
                     (∃ f2 sd2 ref2, suspendedOn w2 f2 sd2 ref2)
                     ∧ ∀ f2 sd2 ref2 a, suspendedOn w2 f2 sd2 ref2 →
                         f2 a sd2 = Normal None → error a = None →
                         ∃ s3 more,
                           subscribers (snd (wakeUp a w2)) !! i = Some s3
                           ∧ closed s3 = true
                           ∧ received s3
                             = (Next <$> acc s ++ [A] ++ more ++ [a])
                               ++ [Complete]).
Proof.
  intros Hsusp Hans Hne. eexists. split; [by eapply wakeUp_forward|].
  pose proof Hsusp as (Hf & _). unfold isActive. simpl. rewrite Hf.
  split; [done|]. split; [done|]. split; [done|]. split.
  { intros i s Hs. rewrite list_lookup_fmap, Hs. simpl. eexists. split; [done|].
    destruct (isObserver ref s) eqn:Hobs; [|done].
    destruct (isObserver_open _ _ Hobs) as [_ Hopen].
    rewrite deliver_Next by done. simpl. done. }
  intros initialState HI%Inv_reachable i s Hs Hc.
  pose proof (wakeUp_open_subscriber w f sd ref A i s HI Hsusp Hs Hc) as Hstep.
  simpl in Hstep. rewrite Hans in Hstep.
  destruct (decide (v = sd)) as [Heq|_]; [contradiction|].
  rewrite (wakeUp_forward A w f sd v ref) in Hstep by done.
  destruct Hstep as [Hsusp' Hs']. simpl in Hs'. split; [exact Hs'|].
  intros w2 Hreach.
  pose proof (Inv_forward w f sd v ref A HI Hsusp) as HI'.
  destruct (reaches_carries _ w2 i _ HI' Hs' Hreach) as (s2 & Hs2 & _ & Hcarry).
  exists s2. split; [done|]. split; [by apply Hcarry|].
  intros Hc2. pose proof (Inv_reaches _ w2 HI' Hreach) as HI2.
  split; [by eapply open_needs_suspension|].
  intros f2 sd2 ref2 a Hsusp2 Hans2 Herr.
  pose proof (wakeUp_open_subscriber w2 f2 sd2 ref2 a i s2 HI2 Hsusp2 Hs2 Hc2)
    as Hwake.
  simpl in Hwake. rewrite Hans2, Herr in Hwake. destruct Hwake as [_ Hs3].
  destruct (Hcarry eq_refl) as [(_ & _ & more & Hacc)|[[Hc2' _]|[Hc2' _]]];
    [|congruence|congruence].
  simpl in Hacc. eexists. exists more. split; [exact Hs3|]. split; [done|].
  simpl. by rewrite Hacc, <- !app_assoc.
Qed.

(** C9, amended to what the code does. In every state a model and its
    subscribers can reach, a subscription whose suspension has not ended
    has received no action (at most the timeout error), and an open
    subscription has received nothing at all and belongs to the running
    suspension. Every event acts on a subscription as [Fate] tells:
    forwarded actions are only buffered; the buffer and the waking action
    are delivered in forwarding order, followed by the completion, by the
    very call that wakes the model; a timeout, an exception of the
    predicate or a waking action carrying an error delivers that error and
    nothing else. Over the rest of the run a closed subscription never
    changes and an open one keeps its buffer until it receives it or an
    error. A subscription is served from the moment it is made: made
    while the suspension is running, it starts open with an empty buffer,
    so that it is later handed exactly the actions forwarded after that
    moment and the waking action; made after the suspension has ended, it
    is closed at once with the completion or the error alone and never
    receives an action. A subscription to the stream of a refused
    suspension gets its error at once. *)
Theorem output_delayed_until_wake (initialState : T) (w : World) :
  reachable initialState w →
  (∀ i s, subscribers w !! i = Some s →
     (∀ ref, source s = Some ref → live w ref → ∀ a, Next a ∉ received s)
     ∧ (closed s = false →
          received s = [] ∧ isActive (model w) = false
          ∧ source s = wakeEvents (model w))
     ∧ (∀ ev, enabled w ev →
          ∃ s', subscribers (step ev w) !! i = Some s' ∧ Fate w s ev s')
     ∧ (∀ w2, reaches w w2 →
          ∃ s2, subscribers w2 !! i = Some s2
            ∧ (closed s = true → s2 = s)
            ∧ (closed s = false → carries (acc s) s2)))
  ∧ (∀ ref ms, ref < length (subjects w) →
      (live w ref →
         subscribers (subscribe (WakeEvents ref ms) w) !! length (subscribers w)
           = Some (freshSubscriber (Some ref) ms (now w))
         ∧ ∃ f sd, suspendedOn w f sd ref
             ∧ ∀ later,
                 ∃ s', subscribers (run (EvAction <$> later)
                                        (subscribe (WakeEvents ref ms) w))
                         !! length (subscribers w) = Some s'
                   ∧ match episode f sd [] later with
                     | StillSuspended buffer sd' =>
                         s' = buffering buffer
                                (freshSubscriber (Some ref) ms (now w))
                     | WokenUp delivered =>
                         closed s' = true
                         ∧ received s' = (Next <$> delivered) ++ [Complete]
                     | Broken e =>
                         closed s' = true ∧ received s' = [Error e]
                     end)
      ∧ (¬ live w ref →
           ∃ s0, subscribers (subscribe (WakeEvents ref ms) w)
                   !! length (subscribers w) = Some s0
             ∧ closed s0 = true
             ∧ (received s0 = [Complete] ∨ ∃ e, received s0 = [Error e])
             ∧ ∀ w2, reaches (subscribe (WakeEvents ref ms) w) w2 →
                 subscribers w2 !! length (subscribers w) = Some s0))
  ∧ ∀ e, ∃ s0, subscribers (subscribe (ThrowError e) w) !! length (subscribers w)
                 = Some s0
           ∧ closed s0 = true ∧ received s0 = [Error e].
Proof.
  intros Hreach. pose proof (Inv_reachable _ _ Hreach) as HI.
  split; [|split].
  - intros i s Hs. split; [|split; [|split]].
    + intros ref Hsrc Hlive a Hin.
      destruct (inv_quiet w HI i s ref Hs Hsrc Hlive) as [Hr|[e Hr]];
        rewrite Hr in Hin.
      * by apply elem_of_nil in Hin.
      * apply list_elem_of_singleton in Hin. discriminate.
    + intros Hopen.
      destruct (inv_open w HI i s Hs Hopen) as (Hr & ref & Hsrc & Hlive).
      destruct (inv_live w HI ref Hlive) as [Hev [f Hf]].
      unfold isActive. rewrite Hf. split; [done|]. split; [done|congruence].
    + intros ev _. by apply step_fate.
    + intros w2 Hto. by apply (reaches_carries w w2 i s).
  - intros ref ms Hen.
    assert (subscribers (subscribe (WakeEvents ref ms) w) !! length (subscribers w)
            = Some (newSubscriber (WakeEvents ref ms) w)) as Hnew.
    { unfold subscribe. simpl. by apply list_lookup_middle. }
    pose proof (Inv_subscribe (WakeEvents ref ms) w HI Hen) as HI1.
    split.
    + intros Hlive. pose proof Hlive as (sj & Hsj & Hstop).
      assert (newSubscriber (WakeEvents ref ms) w
              = freshSubscriber (Some ref) ms (now w)) as Hfresh.
      { unfold newSubscriber. rewrite Hsj.
        by rewrite (live_no_error initialState w ref sj), Hstop. }
      rewrite Hfresh in Hnew. split; [exact Hnew|].
      destruct (inv_live w HI ref Hlive) as [Hev [f Hf]].
      destruct (inv_suspended w HI f Hf) as (sd & ref' & Hsusp).
      assert (ref' = ref) as ->
        by (destruct Hsusp as (_ & _ & Hev' & _); congruence).
      exists f, sd. split; [done|]. intros later.
      destruct (episode_run later (subscribe (WakeEvents ref ms) w) f sd ref
                  (length (subscribers w)) _ HI1 Hsusp Hnew eq_refl)
        as (s' & Hs' & Hres).
      exists s'. split; [done|]. simpl in Hres.
      destruct (episode f sd [] later); [by destruct Hres|by destruct Hres..].
    + intros Hdead. apply lookup_lt_is_Some_2 in Hen as [sj Hsj].
      assert (isStopped sj = true) as Hstop.
      { destruct (isStopped sj) eqn:Hstop; [done|].
        destruct Hdead. by exists sj. }
      eexists. split; [exact Hnew|].
      assert (closed (newSubscriber (WakeEvents ref ms) w) = true
              ∧ (received (newSubscriber (WakeEvents ref ms) w) = [Complete]
                 ∨ ∃ e, received (newSubscriber (WakeEvents ref ms) w) = [Error e]))
        as [Hc Hr].
      { unfold newSubscriber. rewrite Hsj, Hstop.
        destruct (thrownError sj) as [e|].
        - rewrite deliver_Error. simpl. split; [done|]. right. by exists e.
        - rewrite deliver_Complete. simpl. split; [done|]. by left. }
      split; [done|]. split; [done|]. intros w2 Hto.
      destruct (reaches_carries _ w2 _ _ HI1 Hnew Hto) as (s2 & Hs2 & Hkeep & _).
      by rewrite Hs2, (Hkeep Hc).
  - intros e. eexists. split.
    + unfold subscribe. simpl. by apply list_lookup_middle.
    + unfold newSubscriber. by rewrite deliver_Error.
Qed.

End Facts.

(** ** The example models *)

Lemma waiting_suspended : suspendedOn waiting waitReady 0 0.
Proof. repeat split. eexists. split; reflexivity. Defined.

Lemma progressed_suspended : suspendedOn progressed waitReady 1 0.
Proof. repeat split. eexists. split; reflexivity. Defined.

Lemma waiting_reachable : reachable 0 waiting.
Proof.
  apply (reach_step 0 _ (EvSubscribe (WakeEvents 0 50))).
  - apply (reach_step 0 _ (EvSuspend 50 0 waitReady)); [apply reach_new|exact I].
  - simpl. lia.
Defined.

(** A waking action that carries an error: the buffered [PROGRESS] is
    dropped and the subscriber gets the error alone. *)
Example error_flagged_wake :
  let w := run [EvAction (act "PROGRESS");
                EvAction (failing "READY" (NewError "HTTP 500"))] waiting in
  isActive (model w) = true
  ∧ received <$> subscribers w = [[Error (NewError "HTTP 500")]].
Proof. split; reflexivity. Qed.

(** The scenario of the specification: [OTHER] is swallowed, [READY] wakes
    the model; with a forwarded [PROGRESS] in between the subscriber gets
    both actions, in order, at the end. *)
Example ready_wakes :
  let w := run [EvAction (act "OTHER"); EvAction (act "PROGRESS");
                EvAction (act "READY")] waiting in
  isActive (model w) = true
  ∧ received <$> subscribers w
    = [[Next (act "PROGRESS"); Next (act "READY"); Complete]].
Proof. split; reflexivity. Qed.

(** The subject is hot: who subscribes after the wake-up gets the
    completion alone. *)
Example late_subscriber :
  let w := run [EvAction (act "READY"); EvSubscribe (WakeEvents 0 50)] waiting in
  received <$> subscribers w = [[Next (act "READY"); Complete]; [Complete]].
Proof. reflexivity. Qed.

Lemma same_answer_changes_nothing_witness :
  ∃ w', wakeUp (act "OTHER") waiting = (Normal tt, w')
    ∧ isActive (model w') = false
    ∧ syncData (model w') = Some 0
    ∧ subscribers w' = subscribers waiting
    ∧ getState (model w') = getState (model waiting)
    ∧ w' = waiting.
Proof.
  apply (same_answer_changes_nothing waiting waitReady 0 (act "OTHER"));
    reflexivity.
Defined.

Lemma new_answer_buffers_then_delivers_witness :
  ∃ w', wakeUp (act "PROGRESS") waiting = (Normal tt, w')
    ∧ isActive (model w') = false
    ∧ syncData (model w') = Some 1
    ∧ getState (model w') = getState (model waiting)
    ∧ (∀ i s, subscribers waiting !! i = Some s →
         ∃ s', subscribers w' !! i = Some s'
           ∧ received s' = received s
           ∧ closed s' = closed s
           ∧ acc s' = if isObserver 0 s then acc s ++ [act "PROGRESS"] else acc s)
    ∧ ∀ initialState, reachable initialState waiting →
        ∀ i s, subscribers waiting !! i = Some s → closed s = false →
          subscribers w' !! i = Some (buffering (acc s ++ [act "PROGRESS"]) s)
          ∧ ∀ w2, reaches w' w2 →
              ∃ s2, subscribers w2 !! i = Some s2
                ∧ carries (acc s ++ [act "PROGRESS"]) s2
                ∧ (closed s2 = false →
                     (∃ f2 sd2 ref2, suspendedOn w2 f2 sd2 ref2)
                     ∧ ∀ f2 sd2 ref2 a, suspendedOn w2 f2 sd2 ref2 →
                         f2 a sd2 = Normal None → error a = None →
                         ∃ s3 more,
                           subscribers (snd (wakeUp a w2)) !! i = Some s3
                           ∧ closed s3 = true
                           ∧ received s3
                             = (Next <$> acc s ++ [act "PROGRESS"] ++ more ++ [a])
                               ++ [Complete]).
Proof.
  apply (new_answer_buffers_then_delivers waiting waitReady 0 1 0 (act "PROGRESS")).
  - exact waiting_suspended.
  - reflexivity.
  - lia.
Defined.

(** C5 as the specification words it does not hold: the forwarded action
    is not emitted on the returned stream by the call that forwards it, and
    not at all when the suspension ends with an error. Here [PROGRESS] is
    answered with a new synchronisation value, yet the subscriber has
    received nothing after that call; the predicate then throws on [BOOM],
    the subscription is closed with that error alone, and [PROGRESS] is
    never emitted. *)
Lemma forwarded_action_not_emitted :
  suspendedOn waiting waitReady 0 0
  ∧ waitReady (act "PROGRESS") 0 = Normal (Some 1)
  ∧ 1 ≠ 0
  ∧ (∃ s, subscribers waiting !! 0 = Some s ∧ isObserver 0 s = true)
  ∧ (∃ s, subscribers (run [EvAction (act "PROGRESS")] waiting) !! 0 = Some s
          ∧ received s = [])
  ∧ (∃ s, subscribers (run [EvAction (act "PROGRESS"); EvAction (act "BOOM")]
                           waiting) !! 0 = Some s
          ∧ closed s = true
          ∧ received s = [Error (NewError "boom")]
          ∧ Next (act "PROGRESS") ∉ received s).
Proof.
  split; [exact waiting_suspended|].
  split; [reflexivity|]. split; [lia|].
  split; [eexists; split; reflexivity|].
  split; [eexists; split; reflexivity|].
  eexists. split; [reflexivity|]. split; [reflexivity|]. split; [reflexivity|].
  simpl. intros Hin. apply list_elem_of_singleton in Hin. discriminate.
Qed.

Lemma null_answer_wakes_model_witness :
  ∃ w', wakeUp (act "READY") progressed = (Normal tt, w')
    ∧ isActive (model w') = true
    ∧ ∀ i s, subscribers progressed !! i = Some s → isObserver 0 s = true →
        ∃ s', subscribers w' !! i = Some s'
          ∧ closed s' = true
          ∧ received s' = received s ++
              match error (act "READY") with
              | Some e => [Error e]
              | None => (Next <$> acc s) ++ [Next (act "READY"); Complete]
              end.
Proof.
  apply (null_answer_wakes_model progressed waitReady 1 0 (act "READY")).
  - exact progressed_suspended.
  - reflexivity.
Defined.

Lemma throwing_predicate_wakes_model_witness :
  ∃ w', wakeUp (act "BOOM") progressed = (Normal tt, w')
    ∧ isActive (model w') = true
    ∧ ∀ i s, subscribers progressed !! i = Some s → isObserver 0 s = true →
        ∃ s', subscribers w' !! i = Some s'
          ∧ closed s' = true
          ∧ received s' = received s ++ [Error (NewError "boom")].
Proof.
  apply (throwing_predicate_wakes_model progressed waitReady 1 0 (act "BOOM")).
  - exact progressed_suspended.
  - reflexivity.
Defined.

Lemma second_suspend_fails_witness :
  suspendWithTimeout 10 7 waitReady waiting
    = (Normal (ThrowError alreadySuspended), waiting)
  ∧ suspend 7 waitReady waiting = (Normal (ThrowError alreadySuspended), waiting)
  ∧ ∃ s, subscribers (subscribe (ThrowError alreadySuspended) waiting)
           !! length (subscribers waiting) = Some s
         ∧ received s = [Error alreadySuspended] ∧ closed s = true.
Proof.
  apply (second_suspend_fails waiting waitReady waitReady 10 7). reflexivity.
Defined.

Lemma output_delayed_until_wake_witness :
  (∀ i s, subscribers waiting !! i = Some s →
     (∀ ref, source s = Some ref → live waiting ref → ∀ a, Next a ∉ received s)
     ∧ (closed s = false →
          received s = [] ∧ isActive (model waiting) = false
          ∧ source s = wakeEvents (model waiting))
     ∧ (∀ ev, enabled waiting ev →
          ∃ s', subscribers (step ev waiting) !! i = Some s' ∧ Fate waiting s ev s')
     ∧ (∀ w2, reaches waiting w2 →
          ∃ s2, subscribers w2 !! i = Some s2
            ∧ (closed s = true → s2 = s)
            ∧ (closed s = false → carries (acc s) s2)))
  ∧ (∀ ref ms, ref < length (subjects waiting) →
      (live waiting ref →
         subscribers (subscribe (WakeEvents ref ms) waiting)
           !! length (subscribers waiting)
           = Some (freshSubscriber (Some ref) ms (now waiting))
         ∧ ∃ f sd, suspendedOn waiting f sd ref
             ∧ ∀ later,
                 ∃ s', subscribers (run (EvAction <$> later)
                                        (subscribe (WakeEvents ref ms) waiting))
                         !! length (subscribers waiting) = Some s'
                   ∧ match episode f sd [] later with
                     | StillSuspended buffer sd' =>
                         s' = buffering buffer
                                (freshSubscriber (Some ref) ms (now waiting))
                     | WokenUp delivered =>
                         closed s' = true
                         ∧ received s' = (Next <$> delivered) ++ [Complete]
                     | Broken e =>
                         closed s' = true ∧ received s' = [Error e]
                     end)
      ∧ (¬ live waiting ref →
           ∃ s0, subscribers (subscribe (WakeEvents ref ms) waiting)
                   !! length (subscribers waiting) = Some s0
             ∧ closed s0 = true
             ∧ (received s0 = [Complete] ∨ ∃ e, received s0 = [Error e])
             ∧ ∀ w2, reaches (subscribe (WakeEvents ref ms) waiting) w2 →
                 subscribers w2 !! length (subscribers waiting) = Some s0))
  ∧ ∀ e, ∃ s0, subscribers (subscribe (ThrowError e) waiting)
                 !! length (subscribers waiting) = Some s0
           ∧ closed s0 = true ∧ received s0 = [Error e].
Proof. apply (output_delayed_until_wake 0 waiting). exact waiting_reachable. Defined.

(** C9 as the specification words it does not hold for a subscription made
    while the suspension is running. The model is suspended and a first
    [PROGRESS] action is forwarded before anybody has subscribed; then a
    subscriber arrives, a second [PROGRESS] is forwarded and [READY] wakes
    the model. The subscriber is handed the second action and the waking
    one; the first, although forwarded while the model was suspended, is
    never delivered to it. *)
Lemma late_subscriber_misses_forwarded_action :
  let before : @World nat nat unit :=
    run [EvSuspend 0 0 waitReady; EvAction earlyProgress] (newWorld 0) in
  let after :=
    run [EvSubscribe (WakeEvents 0 0); EvAction (act "PROGRESS");
         EvAction (act "READY")] before in
  waitReady earlyProgress 0 = Normal (Some 1)
  ∧ isActive (model before) = false
  ∧ syncData (model before) = Some 1
  ∧ subscribers before = []
  ∧ enabled before (EvSubscribe (WakeEvents 0 0))
  ∧ isActive (model after) = true
  ∧ ∃ s, subscribers after = [s]
      ∧ closed s = true
      ∧ received s = [Next (act "PROGRESS"); Next (act "READY"); Complete]
      ∧ Next earlyProgress ∉ received s.
Proof.
  simpl. repeat (split; [reflexivity || lia|]).
  eexists. split; [reflexivity|]. split; [reflexivity|]. split; [reflexivity|].
  simpl. intros Hin.
  repeat (apply elem_of_cons in Hin as [Hin|Hin]; [discriminate|]).
  by apply elem_of_nil in Hin.
Qed.

(** C1 fails on the code. The model is suspended with a timeout of 50 ms
    and nothing wakes it up. After 49 ms the subscriber has received
    nothing; after 50 ms it has received the timeout error and is closed,
    but [isActive()] is still false, and a [PROGRESS] action arriving later
    is still given to the stored predicate, which updates the stored
    synchronisation value. *)
Theorem timeout_leaves_model_suspended :
  (∃ s, subscribers (run [EvElapse 49] waiting) !! 0 = Some s
        ∧ closed s = false ∧ received s = [])
  ∧ (∃ s, subscribers (run [EvElapse 50] waiting) !! 0 = Some s
          ∧ closed s = true
          ∧ received s = [Error (NewError "Model suspend timeout (50ms)")])
  ∧ isActive (model (run [EvElapse 50] waiting)) = false
  ∧ syncData (model (run [EvElapse 50] waiting)) = Some 0
  ∧ syncData (model (run [EvElapse 50; EvAction (act "PROGRESS")] waiting))
      = Some 1
  ∧ isActive (model (run [EvElapse 50; EvAction (act "PROGRESS")] waiting))
      = false.
Proof.
  split; [eexists; repeat split; reflexivity|].
  split; [eexists; repeat split; reflexivity|].
  repeat split; reflexivity.
Qed.

Lemma duplicate_rejected_replace_overrides_witness :
  addActionHandler "INC" (Some double) (Some save) counter
    = (Throw (reducerDefined "INC"), counter)
  ∧ (∃ e m', addActionHandler "INC" (Some double) (Some save) counter
               = (Throw e, m')
             ∧ (e = reducerDefined "INC" ∨ e = sideEffectDefined "INC"))
  ∧ ∃ m', replaceActionHandler "INC" (Some double) (Some save) counter
            = (Normal (createHandlerModifier "INC"), m')
      ∧ actionMatch m' !! "INC" = Some (produce double)
      ∧ reduce m' 21 (act "INC") = 42.
Proof.
  destruct (duplicate_rejected_replace_overrides counter "INC" (Some double)
              (Some save)) as (Hred & Hse & Hreplace).
  destruct (Hreplace eq_refl) as (m' & Hrep & Ham & _ & Hreduce & _).
  split; [|split].
  - apply Hred; eexists; reflexivity.
  - apply Hse; eexists; reflexivity.
  - exists m'. split; [exact Hrep|]. split; [exact Ham|].
    apply (Hreduce 21 (act "INC")). reflexivity.
Defined.

Lemma replace_inherited_rejected_witness :
  (∃ m', replaceActionHandler "constructor" (Some double) (Some save) counter
           = (Throw (reducerDefined "constructor"), m')
         ∧ actionMatch m' !! "constructor" = Some objectMember.1)
  ∧ (∃ m', replaceActionHandler "constructor" None (Some save) counter
             = (Throw (sideEffectDefined "constructor"), m')
           ∧ sideEffectMatch m' !! "constructor" = Some objectMember.2).
Proof.
  apply (replace_inherited_rejected counter "constructor" objectMember double
           save (Some save)).
  reflexivity.
Defined.

(** C2 fails on the code for the action names that every object inherits.
    On a model that has never been given a handler for [constructor],
    [replaceActionHandler] throws 'Reducer for [constructor] already
    defined.': the deletion removes no own property, the read that follows
    finds [Object.prototype.constructor], and the registration is taken for
    a duplicate. The same happens for the side-effect producer, for
    [toString], and for a name whose handler was set by
    [extendActionHandler] before. For an ordinary name such as [INC] the
    replacement goes through. *)
Theorem replace_rejects_inherited_name :
  replaceActionHandler "constructor" (Some double) None blank
    = (Throw (reducerDefined "constructor"), blank)
  ∧ replaceActionHandler "constructor" None (Some save) blank
    = (Throw (sideEffectDefined "constructor"), blank)
  ∧ replaceActionHandler "toString" (Some double) None counter
    = (Throw (reducerDefined "toString"), counter)
  ∧ (∃ m1 m2,
       extendActionHandler "toString" (Some inc) None counter
         = (Normal (createHandlerModifier "toString"), m1)
       ∧ replaceActionHandler "toString" (Some double) None m1
         = (Throw (reducerDefined "toString"), m2))
  ∧ (∃ m', replaceActionHandler "INC" (Some double) None counter
             = (Normal (createHandlerModifier "INC"), m')
           ∧ reduce m' 21 (act "INC") = 42).
Proof.
  split; [reflexivity|]. split; [reflexivity|]. split; [reflexivity|].
  split.
  - exists (snd (extendActionHandler "toString" (Some inc) None counter)).
    exists (snd (replaceActionHandler "toString" (Some double) None
                   (snd (extendActionHandler "toString" (Some inc) None counter)))).
    split; reflexivity.
  - exists (snd (replaceActionHandler "INC" (Some double) None counter)).
    split; reflexivity.
Qed.

Lemma addActionHandler_not_atomic_witness :
  ∃ m', addActionHandler "SAVE" (Some inc) (Some save) sideEffectOnly
          = (Throw (sideEffectDefined "SAVE"), m')
    ∧ actionMatch m' !! "SAVE" = Some (produce inc)
    ∧ sideEffectMatch m' = sideEffectMatch sideEffectOnly
    ∧ ∀ st a, name a = "SAVE" → reduce m' st a = inc st a.
Proof.
  apply (addActionHandler_not_atomic sideEffectOnly "SAVE" inc save save);
    reflexivity.
Defined.

(** ** Further runs of the example models *)

Lemma addActionHandler_registers_witness :
  ∃ m' : @StatelessModel nat nat unit,
    addActionHandler "INC" (Some inc) (Some save) (newModel 0)
      = (Normal (createHandlerModifier "INC"), m')
    ∧ (∀ st a, name a = "INC" →
         reduce m' st a = inc st a
         ∧ ∀ (d : @SEDispatcher unit) q, sideEffects m' st a d q = save st a d q)
    ∧ (∀ st a, name a ≠ "INC" →
         reduce m' st a = reduce (newModel 0 : @StatelessModel nat nat unit) st a
         ∧ ∀ (d : @SEDispatcher unit) q,
             sideEffects m' st a d q
               = sideEffects (newModel 0 : @StatelessModel nat nat unit) st a d q).
Proof.
  apply (addActionHandler_registers (newModel 0 : @StatelessModel nat nat unit)
           "INC" inc save); reflexivity.
Defined.

Lemma subtype_handler_filters_witness :
  ∃ m', addActionSubtypeHandler "INC" fromSideEffect (Some inc) (Some save)
          (newModel 0 : @StatelessModel nat nat unit)
          = (Normal (createHandlerModifier "INC"), m')
    ∧ ∀ st a, name a = "INC" →
        (fromSideEffect a = true →
           reduce m' st a = inc st a
           ∧ ∀ (d : @SEDispatcher unit) q, sideEffects m' st a d q = save st a d q)
        ∧ (fromSideEffect a = false →
           reduce m' st a = st
           ∧ ∀ (d : @SEDispatcher unit) q, sideEffects m' st a d q = (Normal tt, q)).
Proof.
  apply (subtype_handler_filters (newModel 0 : @StatelessModel nat nat unit)
           "INC" fromSideEffect inc save); reflexivity.
Defined.

Lemma second_subtype_handler_rejected_witness :
  ∃ m1, addActionSubtypeHandler "INC" fromSideEffect (Some inc) None
          (newModel 0 : @StatelessModel nat nat unit)
          = (Normal (createHandlerModifier "INC"), m1)
    ∧ addActionSubtypeHandler "INC" (λ a, negb (fromSideEffect a)) (Some double)
        None m1
        = (Throw (reducerDefined "INC"), m1)
    ∧ addActionHandler "INC" (Some double) None m1
        = (Throw (reducerDefined "INC"), m1).
Proof.
  apply (second_subtype_handler_rejected
           (newModel 0 : @StatelessModel nat nat unit) "INC" fromSideEffect
           (λ a, negb (fromSideEffect a)) inc double None).
  reflexivity.
Defined.



Lemma alias_outlives_replacement_witness :
  ∃ m1 m2,
    reduceAlsoOn (createHandlerModifier "INC") ["ADD"] counter
      = (Normal (createHandlerModifier "INC"), m1)
    ∧ replaceActionHandler "INC" (Some double) None m1
      = (Normal (createHandlerModifier "INC"), m2)
    ∧ (∀ st a, name a = "INC" → reduce m2 st a = double st a)
    ∧ (∀ st a, name a = "ADD" → reduce m2 st a = produce inc st a).
Proof.
  apply (alias_outlives_replacement counter "INC" "ADD" (produce inc) double).
  - discriminate.
  - reflexivity.
  - reflexivity.
  - reflexivity.
Defined.

Lemma suspension_without_timeout_waits_witness :
  ∃ o w1, suspendWithTimeout 0 0 waitReady (newWorld 0) = (Normal o, w1)
    ∧ (0%Z = 0%Z → suspend 0 waitReady (newWorld 0) = (Normal o, w1))
    ∧ let w2 := run (EvElapse <$> [1000; 4000]) (subscribe o w1) in
      isActive (model w2) = false
      ∧ ∃ s, subscribers w2 !! length (subscribers (newWorld 0 : @World nat nat unit))
               = Some s
             ∧ closed s = false ∧ received s = [] ∧ acc s = [].
Proof.
  apply (suspension_without_timeout_waits (newWorld 0 : @World nat nat unit)
           0 0 waitReady [1000; 4000]).
  - reflexivity.
  - lia.
Defined.

Lemma suspension_follows_wake_predicate_witness :
  ∃ s', subscribers
          (run (EvAction <$> [act "OTHER"; act "PROGRESS"; act "READY";
                              act "PROGRESS"]) waiting) !! 0 = Some s'
    ∧ match episode waitReady 0 (acc firstSubscriber)
              [act "OTHER"; act "PROGRESS"; act "READY"; act "PROGRESS"] with
      | StillSuspended buffer sd' =>
          suspendedOn
            (run (EvAction <$> [act "OTHER"; act "PROGRESS"; act "READY";
                                act "PROGRESS"]) waiting) waitReady sd' 0
          ∧ s' = buffering buffer firstSubscriber
      | WokenUp delivered =>
          isActive
            (model (run (EvAction <$> [act "OTHER"; act "PROGRESS"; act "READY";
                                       act "PROGRESS"]) waiting)) = true
          ∧ closed s' = true
          ∧ received s' = (Next <$> delivered) ++ [Complete]
      | Broken e =>
          isActive
            (model (run (EvAction <$> [act "OTHER"; act "PROGRESS"; act "READY";
                                       act "PROGRESS"]) waiting)) = true
          ∧ closed s' = true
          ∧ received s' = [Error e]
      end.
Proof.
  apply (suspension_follows_wake_predicate 0 waiting waitReady 0 0 0
           firstSubscriber).
  - exact waiting_reachable.
  - exact waiting_suspended.
  - reflexivity.
  - reflexivity.
Defined.

(** The same run, evaluated: [OTHER] is swallowed, [PROGRESS] and [READY]
    are delivered in that order, the [PROGRESS] after the wake-up is not. *)
Example episode_of_waiting :
  episode waitReady 0 []
    [act "OTHER"; act "PROGRESS"; act "READY"; act "PROGRESS"]
  = WokenUp [act "PROGRESS"; act "READY"].
Proof. reflexivity. Qed.

Lemma active_means_all_streams_ended_witness :
  (isActive (model waiting) = true ↔ ∀ ref, ¬ live waiting ref)
  ∧ (∀ ref ref', live waiting ref → live waiting ref' → ref = ref')
  ∧ (isActive (model waiting) = true →
       ∀ i s, subscribers waiting !! i = Some s → closed s = true).
Proof.
  apply (active_means_all_streams_ended 0 waiting). exact waiting_reachable.
Defined.

Lemma subscribers_see_well_formed_streams_witness : streamShape firstSubscriber.
Proof.
  apply (subscribers_see_well_formed_streams 0 waiting 0 firstSubscriber).
  - exact waiting_reachable.
  - reflexivity.
Defined.

End ModelFacts.
